(** * The DOM node tree of textual: a shallow embedding

    This development embeds [src/textual/dom.py] (class [DOMNode]) and the
    [press] path of [src/textual/widgets/_button.py] (class [Button]) and
    proves properties of the node tree: identity, composition, traversal,
    class mutation, the display helpers and the resolved text style.

    Python objects live in a store indexed by their identity; methods are
    computations in a state-and-exception monad over that store, so that a
    raised exception keeps every mutation made before it, as in Python. *)

From Stdlib Require Import QArith.
From stdpp Require Import gmap strings list fin_maps.

Local Open Scope string_scope.

(** ** External collaborators *)

(** [textual.color.Color] is a named tuple [(r, g, b, a)]; the alpha channel
    is written as a rational. *)
Record Color := mkColor { r : Z; g : Z; b : Z; a : Q }.

(** The [rich] library is outside the repository, and the colour arithmetic
    of [textual.color], the error tools and the constants of [textual.css]
    are not among the sources: they are taken as an interface.
    - [Style_null] is [Style()], [Style_new bg fg] is
      [Style(bgcolor=bg, color=fg)], [Style_add] is [Style.__add__];
    - [Color_add] is [Color.__add__] (alpha compositing), [rich_color] is
      [Color.rich_color];
    - [repr_str] is Python's [repr] on a [str];
    - [friendly_list] is [css._error_tools.friendly_list];
    - [VALID_DISPLAY] and [VALID_VISIBILITY] are the constants of
      [css.constants];
    - the [DEFAULT_] values are the built-in defaults that a style property
      unset in every layer falls through to. *)
Class Rich := {
  Style : Type;
  RichColor : Type;
  Style_null : Style;
  Style_new : RichColor -> RichColor -> Style;
  Style_add : Style -> Style -> Style;
  Color_add : Color -> Color -> Color;
  rich_color : Color -> RichColor;
  repr_str : string -> string;
  friendly_list : gset string -> string;
  VALID_DISPLAY : gset string;
  VALID_VISIBILITY : gset string;
  DEFAULT_VISIBILITY : string;
  DEFAULT_BACKGROUND : Color;
  DEFAULT_COLOR : Color;
  DEFAULT_TEXT_STYLE : Style
}.

(** ** Data model *)

(** Object identity. *)
Definition addr := nat.

(** A value that is either a [bool] or a [str] (the argument of the
    [display] and [visible] setters). *)
Inductive BoolOrStr :=
| PyBool (b : bool)
| PyStr (s : string).

(** The exceptions raised by the embedded code. [AttributeError] stands for
    a method call on an identity that names no object. *)
Inductive Exception :=
| ValueError (msg : string)
| StyleValueError (msg : string)
| NoMatchingNodesError (msg : string)
| LookupError
| AttributeError.

(** [functools.partial(self.remove_class, *class_names)]: the only callback
    the embedded code hands to a timer. *)
Inductive Callback :=
| partial_remove_class (self : addr) (class_names : list string).

(** A timer of the message pump: a delay and the callback to invoke when
    the delay has expired. *)
Record Timer := mkTimer { timer_delay : Q; timer_callback : Callback }.

(** Messages posted by the embedded code. *)
Inductive Message :=
| Button_Pressed (button : addr).

Section DataModel.
Context `{R : Rich}.

(** One style layer ([css.styles.Styles]): a property is either unset
    ([None]) or set to a value. Only the properties read or written by the
    embedded code are kept. *)
Record Styles := mkStyles {
  display_rule : option string;
  visibility_rule : option string;
  background_rule : option Color;
  color_rule : option Color;
  text_style_rule : option Style
}.

(** [DOMNode] with the fields of [MessagePump] ([_parent], the message
    queue and the timers) and of [Widget] ([disabled]) that the embedded
    code reads or writes. *)
Record DOMNode := mkDOMNode {
  _name : option string;
  _id : option string;
  _classes : gset string;
  children : list addr;
  _css_styles : Styles;
  _inline_styles : Styles;
  _parent : option addr;
  _message_queue : list Message;
  _timers : list Timer;
  disabled : bool
}.

(** What the embedded code asks of the application context. *)
Inductive Event :=
| Stylesheet_update (app : addr) (animate : bool).

(** The store: the objects, the value of the [active_app] context variable
    and the requests made to the application. *)
Record World := mkWorld {
  nodes : gmap addr DOMNode;
  active_app : option addr;
  trace : list Event
}.
End DataModel.

Arguments Styles {R}.
Arguments DOMNode {R}.
Arguments World {R}.

(** The cascade engine is outside the repository sources: it is an
    interface giving, for a store and an object, the cascade layer that the
    stylesheet computes for that object. *)
Class Stylesheet `{R : Rich} := {
  apply_rules : gmap addr DOMNode -> addr -> Styles
}.

(** ** The state-and-exception monad *)

Inductive Result (A : Type) :=
| Ok (x : A)
| Raise (e : Exception).
Arguments Ok {A} x.
Arguments Raise {A} e.

Section Monad.
Context `{R : Rich}.

Definition M (A : Type) : Type := World -> Result A * World.

Definition ret {A} (x : A) : M A := fun w => (Ok x, w).

Definition bind {A B} (m : M A) (k : A -> M B) : M B :=
  fun w => match m w with
           | (Ok x, w') => k x w'
           | (Raise e, w') => (Raise e, w')
           end.

Definition raise {A} (e : Exception) : M A := fun w => (Raise e, w).

(** [try: body except LookupError: pass]. *)
Definition try_except_LookupError (body : M unit) : M unit :=
  fun w => match body w with
           | (Raise LookupError, w') => (Ok tt, w')
           | res => res
           end.

(** Attribute access on the object [self]. *)
Definition get_node (self : addr) : M DOMNode :=
  fun w => match nodes w !! self with
           | Some n => (Ok n, w)
           | None => (Raise AttributeError, w)
           end.

(** In-place mutation of the object [self]. *)
Definition modify_node (self : addr) (f : DOMNode -> DOMNode) : M unit :=
  fun w => match nodes w !! self with
           | Some n => (Ok tt, mkWorld (<[self := f n]> (nodes w))
                                       (active_app w) (trace w))
           | None => (Raise AttributeError, w)
           end.

(** [for x in l: body(x)]. *)
Fixpoint for_each {A} (l : list A) (body : A -> M unit) : M unit :=
  match l with
  | [] => ret tt
  | x :: l' => bind (body x) (fun _ => for_each l' body)
  end.
End Monad.

Notation "x <- m ;; k" := (bind m (fun x => k))
  (at level 100, m at next level, right associativity).
Notation "m ;;; k" := (bind m (fun _ => k))
  (at level 100, right associativity).

(** ** Field updates *)

Section FieldUpdates.
Context `{R : Rich}.

Definition with_id (v : option string) (n : DOMNode) : DOMNode :=
  mkDOMNode (_name n) v (_classes n) (children n) (_css_styles n)
            (_inline_styles n) (_parent n) (_message_queue n) (_timers n)
            (disabled n).

Definition with_classes (v : gset string) (n : DOMNode) : DOMNode :=
  mkDOMNode (_name n) (_id n) v (children n) (_css_styles n)
            (_inline_styles n) (_parent n) (_message_queue n) (_timers n)
            (disabled n).

Definition with_children (v : list addr) (n : DOMNode) : DOMNode :=
  mkDOMNode (_name n) (_id n) (_classes n) v (_css_styles n)
            (_inline_styles n) (_parent n) (_message_queue n) (_timers n)
            (disabled n).

Definition with_css_styles (v : Styles) (n : DOMNode) : DOMNode :=
  mkDOMNode (_name n) (_id n) (_classes n) (children n) v
            (_inline_styles n) (_parent n) (_message_queue n) (_timers n)
            (disabled n).

Definition with_inline_styles (v : Styles) (n : DOMNode) : DOMNode :=
  mkDOMNode (_name n) (_id n) (_classes n) (children n) (_css_styles n)
            v (_parent n) (_message_queue n) (_timers n) (disabled n).

Definition with_parent (v : option addr) (n : DOMNode) : DOMNode :=
  mkDOMNode (_name n) (_id n) (_classes n) (children n) (_css_styles n)
            (_inline_styles n) v (_message_queue n) (_timers n)
            (disabled n).

Definition with_message_queue (v : list Message) (n : DOMNode) : DOMNode :=
  mkDOMNode (_name n) (_id n) (_classes n) (children n) (_css_styles n)
            (_inline_styles n) (_parent n) v (_timers n) (disabled n).

Definition with_timers (v : list Timer) (n : DOMNode) : DOMNode :=
  mkDOMNode (_name n) (_id n) (_classes n) (children n) (_css_styles n)
            (_inline_styles n) (_parent n) (_message_queue n) v
            (disabled n).

Definition with_display (v : option string) (s : Styles) : Styles :=
  mkStyles v (visibility_rule s) (background_rule s) (color_rule s)
           (text_style_rule s).

Definition with_visibility (v : option string) (s : Styles) : Styles :=
  mkStyles (display_rule s) v (background_rule s) (color_rule s)
           (text_style_rule s).
End FieldUpdates.

(** ** Identity *)

Section Identity.
Context `{R : Rich}.

(** [DOMNode.id] (getter). *)
Definition id_get (self : addr) : M (option string) :=
  n <- get_node self ;; ret (_id n).

(** The message of the [ValueError] raised by the [id] setter. *)
Definition id_conflict_message (current : string) : string :=
  "Node 'id' attribute may not be changed once set (current id="
    ++ repr_str current ++ ")".

(** [DOMNode.id] (setter). *)
Definition id_set (self : addr) (new_id : string) : M string :=
  n <- get_node self ;;
  match _id n with
  | Some current => raise (ValueError (id_conflict_message current))
  | None => modify_node self (with_id (Some new_id)) ;;; ret new_id
  end.
End Identity.

(** ** Composition *)

Section Composition.
Context `{R : Rich}.

(** Modelled from the spec: [NodeList._append] (module [_node_list] is not
    among the sources). The spec's words: append(node) adds at the end,
    preserving order. *)
Definition _append (self : addr) (node : addr) : M unit :=
  modify_node self (fun n => with_children (children n ++ [node]) n).

(** Modelled from the spec: [MessagePump.set_parent] (module
    [message_pump] is not among the sources): it sets the parent
    back-reference of [self]. *)
Definition set_parent (self : addr) (parent : addr) : M unit :=
  modify_node self (with_parent (Some parent)).

(** [DOMNode.add_child]. *)
Definition add_child (self : addr) (node : addr) : M unit :=
  _append self node ;;;
  set_parent node self.

(** [DOMNode.add_children]: [nodes_] are the positional arguments,
    [named_nodes] the keyword arguments in the order they were given. *)
Definition add_children (self : addr) (nodes_ : list addr)
    (named_nodes : list (string * addr)) : M unit :=
  for_each nodes_ (fun node => _append self node) ;;;
  for_each named_nodes (fun '(node_id, node) =>
    _append self node ;;;
    _ <- id_set node node_id ;; ret tt).
End Composition.

(** ** Traversal *)

Section Traversal.
Context `{R : Rich}.

(** The loop of [DOMNode.walk_children]. [stack] holds the iterators, the
    top of the stack first; an iterator is the list of the children it has
    still to produce. [out] is the sequence yielded so far. The loop is
    not structurally recursive, so it is bounded by [fuel]; [None] means
    that the fuel ran out. *)
Fixpoint walk_children_loop (fuel : nat) (w : World)
    (stack : list (list addr)) (out : list addr)
    : option (Result (list addr)) :=
  match fuel with
  | O => None
  | S fuel' =>
      match stack with
      | [] => Some (Ok out)
      | [] :: stack' => walk_children_loop fuel' w stack' out
      | (node :: it) :: stack' =>
          match nodes w !! node with
          | None => Some (Raise AttributeError)
          | Some n =>
              match children n with
              | [] => walk_children_loop fuel' w (it :: stack')
                                         (out ++ [node])
              | _ :: _ => walk_children_loop fuel' w
                            (children n :: it :: stack') (out ++ [node])
              end
          end
      end
  end.

(** [DOMNode.walk_children]: the sequence of the nodes it yields. *)
Definition walk_children (fuel : nat) (w : World) (self : addr)
    (with_self : bool) : option (Result (list addr)) :=
  match nodes w !! self with
  | None => Some (Raise AttributeError)
  | Some n =>
      walk_children_loop fuel w [children n]
                         (if with_self then [self] else [])
  end.

(** The loop of [DOMNode.get_child]. *)
Fixpoint get_child_loop (cs : list addr) (id : string) : M addr :=
  match cs with
  | [] => raise (NoMatchingNodesError
                   ("No child found with id=" ++ repr_str id))
  | child :: cs' =>
      child_id <- id_get child ;;
      if bool_decide (child_id = Some id) then ret child
      else get_child_loop cs' id
  end.

(** [DOMNode.get_child]. *)
Definition get_child (self : addr) (id : string) : M addr :=
  n <- get_node self ;;
  get_child_loop (children n) id.

(** The loop of [DOMNode.ancestors]; [acc] is the list [nodes]. *)
Fixpoint ancestors_loop (fuel : nat) (w : World) (node : addr)
    (acc : list addr) : option (Result (list addr)) :=
  match fuel with
  | O => None
  | S fuel' =>
      match nodes w !! node with
      | None => Some (Raise AttributeError)
      | Some n =>
          match _parent n with
          | None => Some (Ok acc)
          | Some p => ancestors_loop fuel' w p (acc ++ [p])
          end
      end
  end.

(** [DOMNode.ancestors]. *)
Definition ancestors (fuel : nat) (w : World) (self : addr)
    : option (Result (list addr)) :=
  ancestors_loop fuel w self [self].

(** The loop of [DOMNode.css_path_nodes]; [acc] is the list [result].
    Every object of the store is a [DOMNode], so the test
    [isinstance(node._parent, DOMNode)] holds exactly when [_parent] is
    not [None]. *)
Fixpoint css_path_nodes_loop (fuel : nat) (w : World) (node : addr)
    (acc : list addr) : option (Result (list addr)) :=
  match fuel with
  | O => None
  | S fuel' =>
      match nodes w !! node with
      | None => Some (Raise AttributeError)
      | Some n =>
          match _parent n with
          | Some p => css_path_nodes_loop fuel' w p (acc ++ [p])
          | None => Some (Ok (rev acc))
          end
      end
  end.

(** [DOMNode.css_path_nodes]. *)
Definition css_path_nodes (fuel : nat) (w : World) (self : addr)
    : option (Result (list addr)) :=
  css_path_nodes_loop fuel w self [self].
End Traversal.

(** ** Styles *)

Section StyleHelpers.
Context `{R : Rich}.

(** Modelled from the spec: the merged read view [RenderStyles] (module
    [css.styles] is not among the sources). The spec's words: inline
    values shadow cascade values per property; a property absent from a
    layer falls through to the next layer, ultimately to a built-in
    default; has_rule distinguishes unset from set to default. *)
Definition merged {A} (rule : Styles -> option A) (n : DOMNode)
    : option A :=
  match rule (_inline_styles n) with
  | Some v => Some v
  | None => rule (_css_styles n)
  end.

(** [styles.has_rule(name)] for the rule read through [rule]. *)
Definition has_rule {A} (rule : Styles -> option A) (n : DOMNode) : bool :=
  bool_decide (is_Some (merged rule n)).

(** [styles.display]; the built-in default is the string block, as the
    comment of the [display] setter says. *)
Definition styles_display (n : DOMNode) : string :=
  default "block" (merged display_rule n).

(** [styles.visibility]. *)
Definition styles_visibility (n : DOMNode) : string :=
  default DEFAULT_VISIBILITY (merged visibility_rule n).

(** [styles.background]. *)
Definition styles_background (n : DOMNode) : Color :=
  default DEFAULT_BACKGROUND (merged background_rule n).

(** [styles.color]. *)
Definition styles_color (n : DOMNode) : Color :=
  default DEFAULT_COLOR (merged color_rule n).

(** [styles.text_style]. *)
Definition styles_text_style (n : DOMNode) : Style :=
  default DEFAULT_TEXT_STYLE (merged text_style_rule n).

(** Modelled from the spec: the assignment [self.styles.display = v]
    (module [css.styles] is not among the sources). The spec's words:
    the inline layer is written by direct programmatic assignment. *)
Definition styles_set_display (self : addr) (v : string) : M unit :=
  modify_node self (fun n =>
    with_inline_styles (with_display (Some v) (_inline_styles n)) n).

(** Modelled from the spec: the assignment [self.styles.visibility = v],
    as [styles_set_display]. *)
Definition styles_set_visibility (self : addr) (v : string) : M unit :=
  modify_node self (fun n =>
    with_inline_styles (with_visibility (Some v) (_inline_styles n)) n).

(** [repr] of the argument of the [display] and [visible] setters. *)
Definition repr (v : BoolOrStr) : string :=
  match v with
  | PyBool true => "True"
  | PyBool false => "False"
  | PyStr s => repr_str s
  end.

(** [DOMNode.display] (getter). *)
Definition display_get (self : addr) : M bool :=
  n <- get_node self ;;
  ret (bool_decide (styles_display n ≠ "none")).

(** The message of the [StyleValueError] raised by the [display] setter. *)
Definition display_error_message (new_val : BoolOrStr) : string :=
  "invalid value for display (received " ++ repr new_val
    ++ ", expected " ++ friendly_list VALID_DISPLAY ++ ")".

(** [DOMNode.display] (setter). *)
Definition display_set (self : addr) (new_val : BoolOrStr) : M unit :=
  match new_val with
  | PyBool b => styles_set_display self (if b then "block" else "none")
  | PyStr s =>
      if bool_decide (s ∈ VALID_DISPLAY) then styles_set_display self s
      else raise (StyleValueError (display_error_message new_val))
  end.

(** [DOMNode.visible] (getter). *)
Definition visible_get (self : addr) : M bool :=
  n <- get_node self ;;
  ret (bool_decide (styles_visibility n ≠ "hidden")).

(** The message of the [StyleValueError] raised by the [visible]
    setter. *)
Definition visible_error_message (new_value : BoolOrStr) : string :=
  "invalid value for visibility (received " ++ repr new_value
    ++ ", expected " ++ friendly_list VALID_VISIBILITY ++ ")".

(** [DOMNode.visible] (setter). *)
Definition visible_set (self : addr) (new_value : BoolOrStr) : M unit :=
  match new_value with
  | PyBool b =>
      styles_set_visibility self (if b then "visible" else "hidden")
  | PyStr s =>
      if bool_decide (s ∈ VALID_VISIBILITY)
      then styles_set_visibility self s
      else raise (StyleValueError (visible_error_message new_value))
  end.

(** The state of the loop of [DOMNode.rich_text_style]: the local
    variables [background], [color] and [style]. *)
Record TextStyleAcc := mkAcc {
  acc_background : Color;
  acc_color : Color;
  acc_style : Style
}.

(** One iteration of the loop of [DOMNode.rich_text_style]. *)
Definition rich_text_style_step (acc : TextStyleAcc) (n : DOMNode)
    : TextStyleAcc :=
  let background :=
    if has_rule background_rule n
    then Color_add (acc_background acc) (styles_background n)
    else acc_background acc in
  let color :=
    if has_rule color_rule n then styles_color n else acc_color acc in
  mkAcc background color (Style_add (acc_style acc) (styles_text_style n)).

(** The loop of [DOMNode.rich_text_style] over the nodes [l]. *)
Fixpoint rich_text_style_loop (w : World) (l : list addr)
    (acc : TextStyleAcc) : Result TextStyleAcc :=
  match l with
  | [] => Ok acc
  | node :: l' =>
      match nodes w !! node with
      | None => Raise AttributeError
      | Some n => rich_text_style_loop w l' (rich_text_style_step acc n)
      end
  end.

(** [DOMNode.rich_text_style]; [fuel] bounds the loop of [ancestors]. *)
Definition rich_text_style (fuel : nat) (w : World) (self : addr)
    : option (Result Style) :=
  match ancestors fuel w self with
  | None => None
  | Some (Raise e) => Some (Raise e)
  | Some (Ok l) =>
      match rich_text_style_loop w (rev l)
              (mkAcc (mkColor 0 0 0 0) (mkColor 255 255 255 0) Style_null)
      with
      | Raise e => Some (Raise e)
      | Ok acc =>
          Some (Ok (Style_add
                      (Style_new (rich_color (acc_background acc))
                                 (rich_color (acc_color acc)))
                      (acc_style acc)))
      end
  end.
End StyleHelpers.

(** ** Class mutation *)

Section Classes.
Context `{R : Rich} `{S : !Stylesheet}.

(** Modelled from the spec: the property [MessagePump.app] (module
    [message_pump] is not among the sources): it reads the context
    variable [active_app], which raises [LookupError] when no application
    is attached. *)
Definition app : M addr :=
  fun w => match active_app w with
           | Some a => (Ok a, w)
           | None => (Raise LookupError, w)
           end.

(** Modelled from the spec: [Stylesheet.update] (module [css.stylesheet]
    is not among the sources). The spec's words: the application context
    recomputes the styles of the whole application tree; the cascade
    layer is written only by the cascade engine. The request is recorded
    in the trace. *)
Definition stylesheet_update (app_ : addr) (animate : bool) : M unit :=
  fun w =>
    (Ok tt,
     mkWorld (map_imap (fun a n =>
                          Some (with_css_styles (apply_rules (nodes w) a) n))
                       (nodes w))
             (active_app w)
             (trace w ++ [Stylesheet_update app_ animate])).

(** [DOMNode.refresh]: its body is [pass]. *)
Definition refresh (self : addr) : M unit := ret tt.

(** The [try] block shared by the three class mutators. *)
Definition update_styles (self : addr) : M unit :=
  try_except_LookupError (
    app1 <- app ;;
    app2 <- app ;;
    stylesheet_update app2 true ;;;
    refresh self).

(** [DOMNode.has_class]. *)
Definition has_class (self : addr) (class_names : list string) : M bool :=
  n <- get_node self ;;
  ret (bool_decide (list_to_set class_names ⊆ _classes n)).

(** [DOMNode.add_class]: [set.update]. *)
Definition add_class (self : addr) (class_names : list string) : M unit :=
  modify_node self (fun n =>
    with_classes (_classes n ∪ list_to_set class_names) n) ;;;
  update_styles self.

(** [DOMNode.remove_class]: [set.difference_update]. *)
Definition remove_class (self : addr) (class_names : list string)
    : M unit :=
  modify_node self (fun n =>
    with_classes (_classes n ∖ list_to_set class_names) n) ;;;
  update_styles self.

(** [set.symmetric_difference_update]: the argument is first made a set,
    then every element of it is removed when present and added when
    absent. *)
Definition symmetric_difference (s t : gset string) : gset string :=
  (s ∖ t) ∪ (t ∖ s).

(** [DOMNode.toggle_class]. *)
Definition toggle_class (self : addr) (class_names : list string)
    : M unit :=
  modify_node self (fun n =>
    with_classes
      (symmetric_difference (_classes n) (list_to_set class_names)) n) ;;;
  update_styles self.
End Classes.

(** ** Button *)

Section Button.
Context `{R : Rich} `{S : !Stylesheet}.

(** [Button.ACTIVE_EFFECT_DURATION], the literal 0.3. *)
Definition ACTIVE_EFFECT_DURATION : Q := 3 # 10.

(** Modelled from the spec: [MessagePump.set_timer] (module
    [message_pump] is not among the sources). The spec's words: a timer
    is a delayed message posted to the owning node's queue; here the
    pending timer is recorded on the node with its delay. *)
Definition set_timer (self : addr) (delay : Q) (callback : Callback)
    : M unit :=
  modify_node self (fun n =>
    with_timers (_timers n ++ [mkTimer delay callback]) n).

(** Modelled from the spec: [MessagePump.post_message] (module
    [message_pump] is not among the sources). The spec's words: posting
    never blocks the poster, the queue is unbounded and first in, first
    out. *)
Definition post_message (self : addr) (message : Message) : M unit :=
  modify_node self (fun n =>
    with_message_queue (_message_queue n ++ [message]) n).

(** Calling a callback. *)
Definition invoke (callback : Callback) : M unit :=
  match callback with
  | partial_remove_class self class_names => remove_class self class_names
  end.

(** Modelled from the spec: the processing of the expiry message of the
    timer [t] (module [message_pump] is not among the sources): the
    callback of the timer is called. *)
Definition process_expiry (t : Timer) : M unit :=
  invoke (timer_callback t).

(** [Button._start_active_affect]. *)
Definition _start_active_affect (self : addr) : M unit :=
  add_class self ["-active"] ;;;
  set_timer self ACTIVE_EFFECT_DURATION
            (partial_remove_class self ["-active"]).

(** [Button.press]. *)
Definition press (self : addr) : M addr :=
  n <- get_node self ;;
  displayed <- display_get self ;;
  if disabled n || negb displayed then ret self
  else
    _start_active_affect self ;;;
    post_message self (Button_Pressed self) ;;;
    ret self.
End Button.

(** ** Trees and parent chains, as the specification speaks of them *)

(** A finite tree of object identities. *)
#[local] Unset Elimination Schemes.
Inductive tree := T (root_ : addr) (subtrees_ : list tree).
#[local] Set Elimination Schemes.

Definition root (t : tree) : addr := match t with T a _ => a end.
Definition subtrees (t : tree) : list tree := match t with T _ ts => ts end.

(** Depth-first pre-order: the node, then the pre-order of each child, in
    the order of the children. *)
Fixpoint preorder (t : tree) : list addr :=
  match t with
  | T a ts => a :: flat_map preorder ts
  end.

(** The nodes of a tree, listed bottom-up. *)
Fixpoint tree_nodes (t : tree) : list addr :=
  match t with
  | T a ts => flat_map tree_nodes ts ++ [a]
  end.

(** [subtree u t]: [u] is [t] or a subtree of one of the children of [t]. *)
Inductive subtree (u : tree) : tree -> Prop :=
| subtree_here : subtree u u
| subtree_below a ts c : c ∈ ts -> subtree u c -> subtree u (T a ts).

(** [in_tree x t]: [x] is a node of [t]. *)
Definition in_tree (x : addr) (t : tree) : Prop :=
  exists ts, subtree (T x ts) t.

(** [descendant d u]: [d] is a node of [u] other than its root position. *)
Definition descendant (d : addr) (u : tree) : Prop :=
  exists c, c ∈ subtrees u /\ in_tree d c.

(** The number of iterations that the loop of [walk_children] makes on the
    tree [t]: one for the node and, when it has children, one for each
    child's tree and one to drop the exhausted iterator. *)
Fixpoint walk_steps (t : tree) : nat :=
  match t with
  | T _ [] => 1
  | T _ ts => 2 + list_sum (map walk_steps ts)
  end.

(** The iterations that the loop makes to exhaust one iterator. *)
Definition iterator_steps (it : list tree) : nat :=
  1 + list_sum (map walk_steps it).

(** The iterations that the loop makes to exhaust a whole stack. *)
Definition stack_steps (fs : list (list tree)) : nat :=
  list_sum (map iterator_steps fs).

(** Fuel that suffices for [walk_children] on the tree [t]. *)
Definition walk_fuel (t : tree) : nat :=
  1 + iterator_steps (subtrees t).

Section TreeShape.
Context `{R : Rich}.

(** [represents w t]: in the store [w], every node of [t] is an object
    whose [children] list holds the roots of its subtrees, in order. *)
Fixpoint represents (w : World) (t : tree) : bool :=
  match t with
  | T a ts =>
      match nodes w !! a with
      | Some n =>
          bool_decide (children n = map root ts)
          && forallb (represents w) ts
      | None => false
      end
  end.

(** [parent_chain w l]: [l] is a node followed by each successive parent,
    ending at a node without parent. *)
Fixpoint parent_chain (w : World) (l : list addr) : bool :=
  match l with
  | [] => false
  | a :: l' =>
      match nodes w !! a with
      | None => false
      | Some n =>
          match l' with
          | [] => bool_decide (_parent n = None)
          | p :: _ => bool_decide (_parent n = Some p) && parent_chain w l'
          end
      end
  end.

(** The objects that the identities [l] name, in order. *)
Definition node_records (w : World) (l : list addr) : list DOMNode :=
  omap (fun x => nodes w !! x) l.

(** The id of the object [c], when [c] is an object with an id. *)
Definition id_of (w : World) (c : addr) : option string :=
  nodes w !! c ≫= _id.

(** The objects of [w] and [w'] have the same parent back-references. *)
Definition same_parents (w w' : World) : Prop :=
  forall x, _parent <$> (nodes w' !! x) = _parent <$> (nodes w !! x).

(** The child ids of [self] are readable: every child is an object. *)
Definition children_exist (w : World) (n : DOMNode) : bool :=
  forallb (fun c => bool_decide (is_Some (nodes w !! c))) (children n).

(** The effective background of the specification: the backgrounds of the
    nodes of [path] that set one, composited in the order of [path]. *)
Definition composite_background (path : list DOMNode) : Color :=
  foldl Color_add (mkColor 0 0 0 0)
        (styles_background <$> List.filter (has_rule background_rule) path).

(** The effective foreground of the specification: the colour of the
    nearest node of [chain] (self first) that sets one. *)
Definition nearest_color (chain : list DOMNode) : Color :=
  match find (has_rule color_rule) chain with
  | Some n => styles_color n
  | None => mkColor 255 255 255 0
  end.

(** The text attributes of the specification: those of the nodes of
    [path], combined in the order of [path]. *)
Definition combined_text_style (path : list DOMNode) : Style :=
  foldl Style_add Style_null (styles_text_style <$> path).
End TreeShape.

(** ** Stores after a write *)

Section Stored.
Context `{R : Rich}.

(** The store [w] after the inline display of [self], whose record was
    [n], is set to [v]. *)
Definition display_stored (w : World) (self : addr) (n : DOMNode)
    (v : string) : World :=
  mkWorld (<[self := with_inline_styles
                       (with_display (Some v) (_inline_styles n)) n]>
           (nodes w))
          (active_app w) (trace w).

(** The store [w] after the inline visibility of [self], whose record was
    [n], is set to [v]. *)
Definition visibility_stored (w : World) (self : addr) (n : DOMNode)
    (v : string) : World :=
  mkWorld (<[self := with_inline_styles
                       (with_visibility (Some v) (_inline_styles n)) n]>
           (nodes w))
          (active_app w) (trace w).

(** The store [w] after the class set of [self], whose record was [n], is
    set to [cs]. *)
Definition classes_stored (w : World) (self : addr) (n : DOMNode)
    (cs : gset string) : World :=
  mkWorld (<[self := with_classes cs n]> (nodes w))
          (active_app w) (trace w).

(** The class set of the object [x]. *)
Definition classes_of (w : World) (x : addr) : option (gset string) :=
  _classes <$> (nodes w !! x).
End Stored.

(** ** A concrete instance and concrete stores *)

Module Demo.
(** A small instance of the external interface: a style is the list of
    its colours with the list of its attribute names, compositing keeps
    the upper colour. *)
#[global] Instance rich : Rich := {|
  Style := list Color * list string;
  RichColor := Color;
  Style_null := ([], []);
  Style_new := fun bg fg => ([bg; fg], []);
  Style_add := fun s t => ((s.1 ++ t.1)%list, (s.2 ++ t.2)%list);
  Color_add := fun _ c => c;
  rich_color := fun c => c;
  repr_str := fun s => "'" ++ s ++ "'";
  friendly_list := fun s => String.concat ", " (elements s);
  VALID_DISPLAY := {[ "block"; "none" ]};
  VALID_VISIBILITY := {[ "visible"; "hidden" ]};
  DEFAULT_VISIBILITY := "visible";
  DEFAULT_BACKGROUND := mkColor 0 0 0 0;
  DEFAULT_COLOR := mkColor 255 255 255 1;
  DEFAULT_TEXT_STYLE := ([], [])
|}.

(** A stylesheet without rules. *)
#[global] Instance stylesheet : Stylesheet := {|
  apply_rules := fun _ _ => mkStyles None None None None None
|}.

Definition no_styles : Styles := mkStyles None None None None None.

(** A fresh node, as [DOMNode.__init__] leaves it. *)
Definition fresh (id : option string) : DOMNode :=
  mkDOMNode None id ∅ [] no_styles no_styles None [] [] false.

(** A node with the given links. *)
Definition linked (id : option string) (cs : list addr)
    (parent : option addr) : DOMNode :=
  mkDOMNode None id ∅ cs no_styles no_styles parent [] [] false.

(** Two detached nodes: 0 without id, 1 with the id old. *)
Definition detached : World :=
  mkWorld (<[0 := fresh None]> (<[1 := fresh (Some "old")]> ∅)) None [].

(** A tree: 0 has the children 1 and 4, 1 has the children 2 and 3; node 3
    has the id deep, node 4 the id side. *)
Definition family : World :=
  mkWorld (<[0 := linked None [1; 4] None]>
           (<[1 := linked None [2; 3] (Some 0)]>
            (<[2 := linked None [] (Some 1)]>
             (<[3 := linked (Some "deep") [] (Some 1)]>
              (<[4 := linked (Some "side") [] (Some 0)]> ∅)))))
          None [].

Definition family_tree : tree :=
  T 0 [T 1 [T 2 []; T 3 []]; T 4 []].

Definition red : Color := mkColor 255 0 0 1.
Definition blue : Color := mkColor 0 0 255 1.
Definition grey : Color := mkColor 128 128 128 (1 # 2).

(** A node with the given parent and inline style layer. *)
Definition styled (parent : option addr) (inline : Styles) : DOMNode :=
  mkDOMNode None None ∅ [] no_styles inline parent [] [] false.

(** A detached button with the given classes and inline style layer. *)
Definition button (classes : gset string) (inline : Styles)
    (disabled_ : bool) : DOMNode :=
  mkDOMNode None None classes [] no_styles inline None [] [] disabled_.

(** Three buttons: 0 is enabled and displayed, 1 is disabled, 2 has the
    inline display none. The node 0 is also the active application in
    [buttons_mounted]. *)
Definition buttons_nodes : gmap addr DOMNode :=
  <[0 := button {[ "-default" ]} no_styles false]>
  (<[1 := button {[ "-default" ]} no_styles true]>
   (<[2 := button {[ "-default" ]}
             (mkStyles (Some "none") None None None None) false]> ∅)).

Definition buttons : World := mkWorld buttons_nodes None [].
Definition buttons_mounted : World := mkWorld buttons_nodes (Some 0) [].

(** A chain: 0 is the root, with a red background, the colour blue and
    the attribute bold; 1 is its child, with a grey background; 2 is the
    child of 1, with the attribute italic only. *)
Definition painted : World :=
  mkWorld (<[0 := styled None
                    (mkStyles None None (Some red) (Some blue)
                              (Some ([], ["bold"]))) ]>
           (<[1 := styled (Some 0)
                     (mkStyles None None (Some grey) None None) ]>
            (<[2 := styled (Some 1)
                      (mkStyles None None None None
                                (Some ([], ["italic"]))) ]>
             ∅)))
          None [].
End Demo.

(** ** Further embedded code *)

Section MoreCode.
Context `{R : Rich} `{S : !Stylesheet}.


(** The list comprehension [[child for child in cs if keep(child)]]. *)
Fixpoint comprehension (keep : addr -> M bool) (cs : list addr)
    : M (list addr) :=
  match cs with
  | [] => ret []
  | child :: cs' =>
      kept <- keep child ;;
      rest <- comprehension keep cs' ;;
      ret (if kept then child :: rest else rest)
  end.

(** [DOMNode.displayed_children]. *)
Definition displayed_children (self : addr) : M (list addr) :=
  n <- get_node self ;;
  comprehension display_get (children n).

(** The condition [child.display and child.visible]: [child.visible] is
    read only when [child.display] holds. *)
Definition display_and_visible (child : addr) : M bool :=
  displayed <- display_get child ;;
  if displayed then visible_get child else ret false.

(** [DOMNode.focusable_children]. *)
Definition focusable_children (self : addr) : M (list addr) :=
  n <- get_node self ;;
  comprehension display_and_visible (children n).

(** [Button.watch_variant]. *)
Definition watch_variant (self : addr) (old_variant variant : string)
    : M unit :=
  remove_class self ["-" ++ old_variant] ;;;
  add_class self ["-" ++ variant].
End MoreCode.

(** ** Further notions for the statements *)

(** A function applied to the value of a run that returned. *)
Definition res_map {A B} (f : A -> B) (r : option (Result A))
    : option (Result B) :=
  match r with
  | None => None
  | Some (Raise e) => Some (Raise e)
  | Some (Ok x) => Some (Ok (f x))
  end.

Section MoreShapes.
Context `{R : Rich}.

(** [parent_links w l last]: every node of [l] has the next node of [l] as
    its parent, and the last one has [last]. *)
Fixpoint parent_links (w : World) (l : list addr) (last : addr) : bool :=
  match l with
  | [] => true
  | x :: l' =>
      match nodes w !! x with
      | None => false
      | Some n =>
          bool_decide (_parent n = Some (hd last l'))
          && parent_links w l' last
      end
  end.

(** [parent_cycle w l]: the parent back-references lead around [l] and
    from its last node back to its first. *)
Definition parent_cycle (w : World) (l : list addr) : bool :=
  match l with
  | [] => false
  | x :: _ => parent_links w l x
  end.

(** What the [display] getter reads for the object [c]. *)
Definition displayed (w : World) (c : addr) : bool :=
  match nodes w !! c with
  | Some n => bool_decide (styles_display n ≠ "none")
  | None => false
  end.

(** What the [visible] getter reads for the object [c]. *)
Definition visible (w : World) (c : addr) : bool :=
  match nodes w !! c with
  | Some n => bool_decide (styles_visibility n ≠ "hidden")
  | None => false
  end.

(** [restyled_only o o']: the object is absent before and after, or is the
    same but for its cascade layer. *)
Definition restyled_only (o o' : option DOMNode) : Prop :=
  match o, o' with
  | Some n, Some n' => exists css, n' = with_css_styles css n
  | None, None => True
  | _, _ => False
  end.

(** [classes_changed_only w w' self f]: from [w] to [w'] no object is
    created or deleted, the class set of [self] goes through [f], and
    nothing else changes but cascade layers. *)
Definition classes_changed_only (w w' : World) (self : addr)
    (f : gset string -> gset string) : Prop :=
  active_app w' = active_app w
  /\ forall x,
       restyled_only
         ((fun n => if bool_decide (x = self)
                    then with_classes (f (_classes n)) n else n)
            <$> (nodes w !! x))
         (nodes w' !! x).

End MoreShapes.

Module Cases.
(** A node added to itself as a child: [add_child] accepts it. *)
Definition own_parent : World := (add_child 0 0 Demo.detached).2.


(** A parent 0 with the children 1, 2 and 3: 1 is shown, 2 has the inline
    display none, 3 is displayed but has the inline visibility hidden. *)
Definition gallery : World :=
  mkWorld (<[0 := Demo.linked None [1; 2; 3] None]>
           (<[1 := Demo.styled (Some 0) Demo.no_styles]>
            (<[2 := Demo.styled (Some 0)
                      (mkStyles (Some "none") None None None None)]>
             (<[3 := Demo.styled (Some 0)
                       (mkStyles None (Some "hidden") None None None)]>
              ∅))))
          None [].

(** A mounted button with the inline display block; it is also the active
    application. *)
Definition pressable : World :=
  mkWorld (<[0 := Demo.button {[ "-default" ]}
                    (mkStyles (Some "block") None None None None) false]> ∅)
          (Some 0) [].
End Cases.

(** ** Running the monad *)

(** Membership in sets built with union, difference and singletons. *)
Ltac set_facts :=
  rewrite ?elem_of_union, ?elem_of_difference, ?elem_of_union,
    ?elem_of_singleton, ?elem_of_empty;
  tauto.

(** Equal lists, up to the bracketing of appends. *)
Ltac reassociate :=
  repeat first [rewrite <- app_assoc | rewrite <- app_comm_cons
               | rewrite app_nil_l | rewrite app_nil_r];
  reflexivity.


Section Running.
Context `{R : Rich}.

Lemma get_node_run (w : World) (self : addr) (n : DOMNode) :
  nodes w !! self = Some n -> get_node self w = (Ok n, w).
Proof. intros H. unfold get_node. by rewrite H. Qed.

Lemma modify_node_run (w : World) (self : addr) (n : DOMNode) f :
  nodes w !! self = Some n ->
  modify_node self f w
  = (Ok tt, mkWorld (<[self := f n]> (nodes w)) (active_app w) (trace w)).
Proof. intros H. unfold modify_node. by rewrite H. Qed.
End Running.

(** ** Identity: the id is set at most once *)

Section IdentityFacts.
Context `{R : Rich}.

Lemma id_set_conflict (w : World) (self : addr) (n : DOMNode)
    (current new_id : string) :
  nodes w !! self = Some n -> _id n = Some current ->
  id_set self new_id w
  = (Raise (ValueError (id_conflict_message current)), w).
Proof.
  intros Hn Hid. unfold id_set, bind.
  rewrite (get_node_run _ _ _ Hn), Hid. reflexivity.
Qed.

Lemma id_set_fresh (w : World) (self : addr) (n : DOMNode)
    (new_id : string) :
  nodes w !! self = Some n -> _id n = None ->
  id_set self new_id w
  = (Ok new_id,
     mkWorld (<[self := with_id (Some new_id) n]> (nodes w))
             (active_app w) (trace w)).
Proof.
  intros Hn Hid. unfold id_set, bind.
  rewrite (get_node_run _ _ _ Hn), Hid.
  rewrite (modify_node_run _ _ _ _ Hn). reflexivity.
Qed.

(** C2. For a node whose id is set, an assignment to id raises the
    ValueError that names the current id and leaves the store, hence the
    id, as it was; for a node whose id is None the assignment stores the
    new id, changes nothing else, and every later assignment fails. *)
Theorem id_is_set_once (w : World) (self : addr) (n : DOMNode)
    (new_id : string) :
  nodes w !! self = Some n ->
  (forall current, _id n = Some current ->
     id_set self new_id w
     = (Raise (ValueError (id_conflict_message current)), w)
     /\ id_get self w = (Ok (Some current), w))
  /\ (_id n = None ->
      exists w',
        id_set self new_id w = (Ok new_id, w')
        /\ nodes w' = <[self := with_id (Some new_id) n]> (nodes w)
        /\ active_app w' = active_app w /\ trace w' = trace w
        /\ id_get self w' = (Ok (Some new_id), w')
        /\ forall other,
             id_set self other w'
             = (Raise (ValueError (id_conflict_message new_id)), w')).
Proof.
  intros Hn. split.
  - intros current Hid. split.
    + by apply id_set_conflict with n.
    + unfold id_get, bind. rewrite (get_node_run _ _ _ Hn).
      unfold ret. by rewrite Hid.
  - intros Hid. eexists. split; [exact (id_set_fresh w self n new_id Hn Hid)|].
    cbn. repeat split.
    + unfold id_get, bind, get_node. cbn. by rewrite lookup_insert_eq.
    + intros other.
      apply id_set_conflict with (with_id (Some new_id) n); [|done].
      cbn. by rewrite lookup_insert_eq.
Qed.
End IdentityFacts.

(** The node 1 of [Demo.detached] has the id old; the node 0 has none. *)
Lemma id_is_set_once_witness :
  (id_set 1 "new" Demo.detached
   = (Raise (ValueError (id_conflict_message "old")), Demo.detached)
   /\ id_get 1 Demo.detached = (Ok (Some "old"), Demo.detached))
  /\ (exists w',
        id_set 0 "new" Demo.detached = (Ok "new", w')
        /\ id_get 0 w' = (Ok (Some "new"), w')
        /\ id_set 0 "newer" w'
           = (Raise (ValueError (id_conflict_message "new")), w')).
Proof.
  split.
  - apply (proj1 (id_is_set_once Demo.detached 1 (Demo.fresh (Some "old"))
                    "new" eq_refl) "old" eq_refl).
  - destruct (proj2 (id_is_set_once Demo.detached 0 (Demo.fresh None)
                       "new" eq_refl) eq_refl)
      as (w' & Hrun & _ & _ & _ & Hget & Hagain).
    exists w'. split; [exact Hrun|]. split; [exact Hget|].
    exact (Hagain "newer").
Defined.

(** ** Composition: what the two ways of adding a child do *)

Section CompositionFacts.
Context `{R : Rich}.


Lemma same_parents_refl (w : World) : same_parents w w.
Proof. by intros x. Qed.

Lemma same_parents_trans (w1 w2 w3 : World) :
  same_parents w1 w2 -> same_parents w2 w3 -> same_parents w1 w3.
Proof. intros H12 H23 x. by rewrite H23, H12. Qed.

Lemma modify_node_same_parents (w : World) (self : addr) f :
  (forall n, _parent (f n) = _parent n) ->
  same_parents w (modify_node self f w).2.
Proof.
  intros Hf x. unfold modify_node.
  destruct (nodes w !! self) as [n|] eqn:Hn; cbn; [|done].
  destruct (decide (x = self)) as [->|Hne].
  - rewrite lookup_insert_eq, Hn. cbn. by rewrite Hf.
  - by rewrite lookup_insert_ne.
Qed.

Lemma bind_same_parents {A B} (m : M A) (k : A -> M B) (w : World) :
  same_parents w (m w).2 ->
  (forall x w1, same_parents w1 (k x w1).2) ->
  same_parents w (bind m k w).2.
Proof.
  intros Hm Hk. unfold bind. destruct (m w) as [[x|e] w1]; cbn in *.
  - eapply same_parents_trans; [exact Hm | apply Hk].
  - exact Hm.
Qed.

Lemma for_each_same_parents {A} (l : list A) (body : A -> M unit) :
  (forall x w, same_parents w (body x w).2) ->
  forall w, same_parents w (for_each l body w).2.
Proof.
  intros Hbody. induction l as [|x l IH]; intros w; cbn.
  - apply same_parents_refl.
  - apply bind_same_parents; [apply Hbody | intros _ w1; apply IH].
Qed.

Lemma _append_same_parents (self node : addr) (w : World) :
  same_parents w (_append self node w).2.
Proof. by apply modify_node_same_parents. Qed.

Lemma id_set_same_parents (self : addr) (new_id : string) (w : World) :
  same_parents w (id_set self new_id w).2.
Proof.
  unfold id_set. apply bind_same_parents.
  - unfold get_node. destruct (nodes w !! self); apply same_parents_refl.
  - intros n w1. destruct (_id n); [apply same_parents_refl|].
    apply bind_same_parents; [by apply modify_node_same_parents|].
    intros _ w2. apply same_parents_refl.
Qed.

(** [add_children] writes no parent back-reference at all, whatever its
    arguments and whether or not it raises. *)
Lemma add_children_same_parents (self : addr) (nodes_ : list addr)
    (named_nodes : list (string * addr)) (w : World) :
  same_parents w (add_children self nodes_ named_nodes w).2.
Proof.
  unfold add_children. apply bind_same_parents.
  - apply for_each_same_parents. intros x w1. apply _append_same_parents.
  - intros _ w1. apply for_each_same_parents. intros [node_id node] w2.
    apply bind_same_parents; [apply _append_same_parents|].
    intros _ w3. apply bind_same_parents; [apply id_set_same_parents|].
    intros _ w4. apply same_parents_refl.
Qed.

(** [add_child] appends the node to the children of [self] and sets the
    parent back-reference of the node to [self]. *)
Lemma add_child_appends_and_sets_parent (w : World) (self node : addr)
    (p c : DOMNode) :
  nodes w !! self = Some p -> nodes w !! node = Some c ->
  exists w' p' c',
    add_child self node w = (Ok tt, w')
    /\ nodes w' !! self = Some p'
    /\ children p' = (children p ++ [node])%list
    /\ nodes w' !! node = Some c'
    /\ _parent c' = Some self.
Proof.
  intros Hp Hc. unfold add_child, _append, set_parent, bind.
  rewrite (modify_node_run _ _ _ _ Hp).
  destruct (decide (node = self)) as [->|Hne].
  - erewrite modify_node_run by (cbn; apply lookup_insert_eq).
    do 3 eexists. split; [reflexivity|]. cbn.
    rewrite lookup_insert_eq. repeat split; reflexivity.
  - erewrite modify_node_run
      by (cbn; rewrite lookup_insert_ne by done; exact Hc).
    do 3 eexists. split; [reflexivity|]. cbn.
    rewrite lookup_insert_eq, lookup_insert_ne by done.
    rewrite lookup_insert_eq. repeat split; reflexivity.
Qed.
End CompositionFacts.

(** C1. In the store [Demo.detached], adding the detached node 1 to the
    node 0 through [add_children], positionally, and adding the detached
    node 0 to the node 1 by the keyword kid, both succeed and append the
    child, the keyword also becomes the id of the child, but the parent
    back-reference of the child is still None; [add_child] on the same
    input sets it. *)
Theorem add_children_leaves_parent_unset :
  (exists w',
     add_children 0 [1] [] Demo.detached = (Ok tt, w')
     /\ children <$> (nodes w' !! 0) = Some [1]
     /\ _parent <$> (nodes w' !! 1) = Some None)
  /\ (exists w',
        add_children 1 [] [("kid", 0)] Demo.detached = (Ok tt, w')
        /\ children <$> (nodes w' !! 1) = Some [0]
        /\ _id <$> (nodes w' !! 0) = Some (Some "kid")
        /\ _parent <$> (nodes w' !! 0) = Some None)
  /\ (exists w',
        add_child 0 1 Demo.detached = (Ok tt, w')
        /\ children <$> (nodes w' !! 0) = Some [1]
        /\ _parent <$> (nodes w' !! 1) = Some (Some 0)).
Proof.
  repeat split; eexists; (split; [reflexivity|]); repeat split; reflexivity.
Qed.

(** ** Pre-order listings *)

Section TreeFacts.

(** Induction on trees, with the hypothesis for every child. *)
Lemma tree_ind (P : tree -> Prop) :
  (forall a ts, Forall P ts -> P (T a ts)) -> forall t, P t.
Proof.
  intros step. fix IH 1. intros [a ts]. apply step.
  induction ts as [|c ts IHts]; constructor; [apply IH | exact IHts].
Qed.

Lemma flat_map_perm (f g : tree -> list addr) (ts : list tree) :
  Forall (fun c => f c ≡ₚ g c) ts -> flat_map f ts ≡ₚ flat_map g ts.
Proof.
  induction 1 as [|c ts Hc _ IH]; cbn; [done|]. by rewrite Hc, IH.
Qed.

(** The pre-order lists the nodes of the tree, each as often as it
    occurs in the tree. *)
Lemma preorder_perm (t : tree) : preorder t ≡ₚ tree_nodes t.
Proof.
  induction t as [a ts IH] using tree_ind. cbn.
  rewrite (flat_map_perm _ _ _ IH).
  by rewrite Permutation_app_comm.
Qed.

(** The pre-order of a subtree is a segment of the pre-order of the
    tree. *)
Lemma preorder_subtree (u t : tree) :
  subtree u t ->
  exists l1 l2, preorder t = (l1 ++ preorder u ++ l2)%list.
Proof.
  induction 1 as [|a ts c Hc _ (l1 & l2 & IH)].
  - exists [], []. cbn. by rewrite app_nil_r.
  - apply list_elem_of_split in Hc as (ts1 & ts2 & ->).
    exists (a :: flat_map preorder ts1 ++ l1)%list,
           (l2 ++ flat_map preorder ts2)%list.
    cbn. rewrite flat_map_app. cbn. rewrite IH.
    by rewrite <- !app_assoc.
Qed.

Lemma subtree_trans (u v t : tree) :
  subtree u v -> subtree v t -> subtree u t.
Proof.
  intros Huv Hvt. induction Hvt as [|a ts c Hc _ IH]; [done|].
  by eapply subtree_below.
Qed.

(** The pre-order holds exactly the nodes of the tree. *)
Lemma preorder_in_tree (x : addr) (t : tree) :
  x ∈ preorder t <-> in_tree x t.
Proof.
  split.
  - induction t as [a ts IH] using tree_ind. cbn.
    intros [->|Hx]%elem_of_cons.
    + exists ts. apply subtree_here.
    + apply list_elem_of_In, in_flat_map in Hx as (c & Hc & Hx).
      apply list_elem_of_In in Hc, Hx.
      rewrite Forall_forall in IH.
      destruct (IH c Hc Hx) as [us Hus].
      exists us. by eapply subtree_below.
  - intros [us Hus].
    destruct (preorder_subtree _ _ Hus) as (l1 & l2 & ->). cbn.
    apply elem_of_app. right. apply elem_of_cons. by left.
Qed.

(** A node comes before each of its descendants. *)
Lemma preorder_parent_first (p : addr) (ts : list tree) (d : addr) :
  descendant d (T p ts) ->
  exists l2 l3, preorder (T p ts) = (p :: l2 ++ d :: l3)%list.
Proof.
  intros (c & Hc & Hd). cbn in Hc.
  assert (d ∈ flat_map preorder ts) as Hin.
  { apply list_elem_of_In, in_flat_map. exists c.
    split; apply list_elem_of_In; [done|]. by apply preorder_in_tree. }
  apply list_elem_of_split in Hin as (l2 & l3 & Heq).
  exists l2, l3. cbn. by rewrite Heq.
Qed.
End TreeFacts.

(** ** The walk of the children is the pre-order *)



Section WalkFacts.
Context `{R : Rich}.

Lemma walk_steps_unfold (a : addr) (ts : list tree) :
  walk_steps (T a ts)
  = match ts with [] => 1 | _ => 1 + iterator_steps ts end.
Proof. by destruct ts. Qed.

Lemma iterator_steps_nil : iterator_steps [] = 1.
Proof. reflexivity. Qed.

Lemma iterator_steps_cons (t : tree) (it : list tree) :
  iterator_steps (t :: it) = walk_steps t + iterator_steps it.
Proof.
  unfold iterator_steps. cbn [map].
  change (list_sum (?x :: ?l)) with (x + list_sum l). lia.
Qed.

Lemma stack_steps_cons (it : list tree) (fs : list (list tree)) :
  stack_steps (it :: fs) = iterator_steps it + stack_steps fs.
Proof. reflexivity. Qed.

Lemma represents_inv (w : World) (a : addr) (ts : list tree) :
  represents w (T a ts) = true ->
  exists n, nodes w !! a = Some n
            /\ children n = map root ts
            /\ forallb (represents w) ts = true.
Proof.
  cbn. destruct (nodes w !! a) as [n|]; [|done].
  intros [Hc Hts]%andb_true_iff. exists n.
  by apply bool_decide_eq_true in Hc.
Qed.

(** The loop invariant: when the stack holds the roots of the forests
    [fs], the loop yields the pre-order of the forests, top first. *)
Lemma walk_children_loop_preorder (w : World) (fuel : nat) :
  forall (fs : list (list tree)) (out : list addr),
    stack_steps fs < fuel ->
    forallb (forallb (represents w)) fs = true ->
    walk_children_loop fuel w (map (map root) fs) out
    = Some (Ok (out ++ flat_map (flat_map preorder) fs)%list).
Proof.
  induction fuel as [|fuel IH]; intros fs out Hfuel Hrep; [lia|].
  destruct fs as [|[|[a ts] it] fs].
  - cbn. by rewrite app_nil_r.
  - rewrite stack_steps_cons, iterator_steps_nil in Hfuel.
    cbn [forallb] in Hrep. cbn [map walk_children_loop flat_map app].
    apply IH; [lia | done].
  - cbn [map walk_children_loop root].
    cbn [forallb] in Hrep.
    apply andb_true_iff in Hrep as [Hrep Hfs].
    apply andb_true_iff in Hrep as [Ha Hit].
    apply represents_inv in Ha as (n & Hn & Hch & Hts).
    rewrite Hn, Hch.
    rewrite stack_steps_cons, iterator_steps_cons, walk_steps_unfold
      in Hfuel.
    destruct ts as [|c ts].
    + specialize (IH (it :: fs) (out ++ [a])%list).
      cbn [map] in IH |- *. rewrite IH.
      * cbn [flat_map preorder]. reassociate.
      * rewrite stack_steps_cons. lia.
      * cbn [forallb]. by rewrite Hit, Hfs.
    + specialize (IH ((c :: ts) :: it :: fs) (out ++ [a])%list).
      cbn [map] in IH |- *. rewrite IH.
      * cbn [flat_map preorder]. reassociate.
      * rewrite !stack_steps_cons. lia.
      * cbn [forallb] in *. by rewrite Hts, Hit, Hfs.
Qed.

(** With enough fuel, [walk_children] on a represented tree returns its
    pre-order, with or without the node itself. *)
Lemma walk_children_runs (w : World) (t : tree) (with_self : bool)
    (fuel : nat) :
  represents w t = true -> walk_fuel t <= fuel ->
  walk_children fuel w (root t) with_self
  = Some (Ok (if with_self then preorder t
              else flat_map preorder (subtrees t))).
Proof.
  destruct t as [a ts]. intros Hrep Hfuel.
  apply represents_inv in Hrep as (n & Hn & Hch & Hts).
  unfold walk_children. cbn [root subtrees]. rewrite Hn, Hch.
  change [map root ts] with (map (map root) [ts]).
  rewrite walk_children_loop_preorder.
  - cbn [flat_map]. rewrite app_nil_r. by destruct with_self.
  - unfold walk_fuel in Hfuel. cbn [subtrees] in Hfuel.
    change (stack_steps [ts]) with (iterator_steps ts + 0). lia.
  - cbn [forallb]. by rewrite Hts.
Qed.
End WalkFacts.

Section WalkTheorem.
Context `{R : Rich}.

(** C3. On a store that holds a finite tree whose nodes are pairwise
    distinct, [walk_children] with [with_self] set, run by its explicit
    stack with enough fuel, returns a sequence that is the depth-first
    pre-order of the tree: it holds every node of the tree exactly once,
    starts with the start node, holds for every node the node followed at
    once by the walks of its children in the order of its children list,
    and so holds every node before each of its descendants. *)
Theorem walk_children_is_preorder (w : World) (t : tree) (fuel : nat) :
  represents w t = true ->
  NoDup (tree_nodes t) ->
  walk_fuel t <= fuel ->
  exists l,
    walk_children fuel w (root t) true = Some (Ok l)
    /\ l = preorder t
    /\ NoDup l
    /\ (forall x, x ∈ l <-> in_tree x t)
    /\ head l = Some (root t)
    /\ (forall p ts, subtree (T p ts) t ->
          exists l1 l2,
            l = (l1 ++ (p :: flat_map preorder ts) ++ l2)%list)
    /\ (forall p ts d, subtree (T p ts) t -> descendant d (T p ts) ->
          exists l1 l2 l3, l = (l1 ++ p :: l2 ++ d :: l3)%list).
Proof.
  intros Hrep Hnodup Hfuel. exists (preorder t).
  split; [exact (walk_children_runs w t true fuel Hrep Hfuel)|].
  split; [reflexivity|].
  split; [by rewrite preorder_perm|].
  split; [intros x; apply preorder_in_tree|].
  split; [by destruct t|].
  split.
  - intros p ts Hsub. exact (preorder_subtree _ _ Hsub).
  - intros p ts d Hsub Hd.
    destruct (preorder_subtree _ _ Hsub) as (l1 & l4 & ->).
    destruct (preorder_parent_first _ _ _ Hd) as (l2 & l3 & ->).
    exists l1, l2, (l3 ++ l4)%list. reassociate.
Qed.
End WalkTheorem.

(** The walk of [Demo.family] from the node 0 yields 0, 1, 2, 3, 4. *)
Lemma walk_children_is_preorder_witness :
  exists l,
    walk_children 10 Demo.family 0 true = Some (Ok l)
    /\ l = [0; 1; 2; 3; 4]
    /\ NoDup l
    /\ (forall x, x ∈ l <-> in_tree x Demo.family_tree)
    /\ head l = Some 0
    /\ (forall p ts, subtree (T p ts) Demo.family_tree ->
          exists l1 l2,
            l = (l1 ++ (p :: flat_map preorder ts) ++ l2)%list)
    /\ (forall p ts d, subtree (T p ts) Demo.family_tree ->
          descendant d (T p ts) ->
          exists l1 l2 l3, l = (l1 ++ p :: l2 ++ d :: l3)%list).
Proof.
  apply (walk_children_is_preorder Demo.family Demo.family_tree 10).
  - reflexivity.
  - apply (bool_decide_unpack _). vm_compute. exact I.
  - vm_compute. lia.
Defined.

(** ** Lookup of an immediate child by id *)

Section GetChildFacts.
Context `{R : Rich}.


Lemma id_get_run (w : World) (c : addr) :
  is_Some (nodes w !! c) -> id_get c w = (Ok (id_of w c), w).
Proof.
  intros [n Hn]. unfold id_get, bind, id_of.
  rewrite (get_node_run _ _ _ Hn), Hn. reflexivity.
Qed.

Lemma get_child_loop_first (w : World) (id : string)
    (l1 : list addr) (c : addr) (l2 : list addr) :
  Forall (fun x => is_Some (nodes w !! x)) (l1 ++ c :: l2) ->
  id_of w c = Some id ->
  Forall (fun x => id_of w x <> Some id) l1 ->
  get_child_loop (l1 ++ c :: l2) id w = (Ok c, w).
Proof.
  induction l1 as [|x l1 IH]; intros Hex Hc Hl1; cbn.
  - apply Forall_cons in Hex as [Hx _]. unfold bind.
    rewrite (id_get_run _ _ Hx), Hc.
    rewrite bool_decide_eq_true_2 by done. reflexivity.
  - apply Forall_cons in Hex as [Hx Hex].
    apply Forall_cons in Hl1 as [Hne Hl1]. unfold bind.
    rewrite (id_get_run _ _ Hx).
    rewrite bool_decide_eq_false_2 by done. by apply IH.
Qed.

Lemma get_child_loop_none (w : World) (id : string) (cs : list addr) :
  Forall (fun x => is_Some (nodes w !! x)) cs ->
  Forall (fun x => id_of w x <> Some id) cs ->
  get_child_loop cs id w
  = (Raise (NoMatchingNodesError
              ("No child found with id=" ++ repr_str id)), w).
Proof.
  induction cs as [|x cs IH]; intros Hex Hcs; cbn; [done|].
  apply Forall_cons in Hex as [Hx Hex].
  apply Forall_cons in Hcs as [Hne Hcs]. unfold bind.
  rewrite (id_get_run _ _ Hx).
  rewrite bool_decide_eq_false_2 by done. by apply IH.
Qed.

Lemma children_exist_Forall (w : World) (n : DOMNode) :
  children_exist w n = true ->
  Forall (fun x => is_Some (nodes w !! x)) (children n).
Proof.
  unfold children_exist. rewrite forallb_forall, Forall_forall.
  intros H x Hx. apply list_elem_of_In in Hx.
  exact (bool_decide_eq_true_1 _ (H x Hx)).
Qed.

(** C7. [get_child] looks at the immediate children only, in order: it
    returns the first child whose id is the given one and leaves the
    store as it is, and when no immediate child has that id it raises
    NoMatchingNodesError, whatever the ids of the other objects of the
    store, deeper descendants included. *)
Theorem get_child_immediate (w : World) (self : addr) (n : DOMNode)
    (id : string) :
  nodes w !! self = Some n ->
  children_exist w n = true ->
  (forall l1 c l2,
     children n = (l1 ++ c :: l2)%list ->
     id_of w c = Some id ->
     Forall (fun x => id_of w x <> Some id) l1 ->
     get_child self id w = (Ok c, w))
  /\ (Forall (fun x => id_of w x <> Some id) (children n) ->
      get_child self id w
      = (Raise (NoMatchingNodesError
                  ("No child found with id=" ++ repr_str id)), w)).
Proof.
  intros Hn Hex%children_exist_Forall. split.
  - intros l1 c l2 Hch Hc Hl1. unfold get_child, bind.
    rewrite (get_node_run _ _ _ Hn), Hch.
    apply get_child_loop_first; [by rewrite <- Hch | done | done].
  - intros Hnone. unfold get_child, bind.
    rewrite (get_node_run _ _ _ Hn). by apply get_child_loop_none.
Qed.
End GetChildFacts.

(** In [Demo.family] the node 0 has the immediate child 4 with the id side,
    found after the child 1; the id deep belongs to the grandchild 3 only,
    and the lookup of it from the node 0 fails. *)
Lemma get_child_immediate_witness :
  get_child 0 "side" Demo.family = (Ok 4, Demo.family)
  /\ get_child 0 "deep" Demo.family
     = (Raise (NoMatchingNodesError "No child found with id='deep'"),
        Demo.family)
  /\ id_of Demo.family 3 = Some "deep"
  /\ in_tree 3 Demo.family_tree
  /\ represents Demo.family Demo.family_tree = true.
Proof.
  split; [|split; [|split; [reflexivity|split; [|reflexivity]]]].
  - apply (proj1 (get_child_immediate Demo.family 0
                    (Demo.linked None [1; 4] None) "side"
                    eq_refl eq_refl) [1] 4 []); [reflexivity..|].
    repeat constructor. vm_compute. discriminate.
  - apply (proj2 (get_child_immediate Demo.family 0
                    (Demo.linked None [1; 4] None) "deep"
                    eq_refl eq_refl)).
    repeat constructor; vm_compute; discriminate.
  - exists []. apply subtree_below with (T 1 [T 2 []; T 3 []]); [set_solver|].
    apply subtree_below with (T 3 []); [set_solver|]. apply subtree_here.
Defined.

(** ** Ancestors and the path from the root *)

Section AncestorFacts.
Context `{R : Rich}.

Lemma parent_chain_inv (w : World) (a : addr) (rest : list addr) :
  parent_chain w (a :: rest) = true ->
  exists n, nodes w !! a = Some n
            /\ match rest with
               | [] => _parent n = None
               | p :: _ => _parent n = Some p
                           /\ parent_chain w rest = true
               end.
Proof.
  cbn. destruct (nodes w !! a) as [n|]; [|done]. intros H. exists n.
  split; [done|]. destruct rest as [|p rest].
  - by apply bool_decide_eq_true in H.
  - apply andb_true_iff in H as [H1 H2].
    by apply bool_decide_eq_true in H1.
Qed.

Lemma ancestors_loop_chain (w : World) (fuel : nat) :
  forall (a : addr) (rest acc : list addr),
    parent_chain w (a :: rest) = true ->
    length rest < fuel ->
    ancestors_loop fuel w a acc = Some (Ok (acc ++ rest)%list).
Proof.
  induction fuel as [|fuel IH]; intros a rest acc Hchain Hfuel; [lia|].
  apply parent_chain_inv in Hchain as (n & Hn & Hrest). cbn.
  rewrite Hn. destruct rest as [|p rest].
  - rewrite Hrest. by rewrite app_nil_r.
  - destruct Hrest as [-> Hrest].
    rewrite (IH p rest (acc ++ [p])%list Hrest) by (cbn in Hfuel; lia).
    do 2 f_equal. reassociate.
Qed.

Lemma css_path_nodes_loop_chain (w : World) (fuel : nat) :
  forall (a : addr) (rest acc : list addr),
    parent_chain w (a :: rest) = true ->
    length rest < fuel ->
    css_path_nodes_loop fuel w a acc
    = Some (Ok (rev (acc ++ rest)%list)).
Proof.
  induction fuel as [|fuel IH]; intros a rest acc Hchain Hfuel; [lia|].
  apply parent_chain_inv in Hchain as (n & Hn & Hrest). cbn.
  rewrite Hn. destruct rest as [|p rest].
  - rewrite Hrest. by rewrite app_nil_r.
  - destruct Hrest as [-> Hrest].
    rewrite (IH p rest (acc ++ [p])%list Hrest) by (cbn in Hfuel; lia).
    do 3 f_equal. reassociate.
Qed.

(** C8. When [chain] is the node [self] followed by each successive
    parent up to a node without parent, [ancestors], run with enough
    fuel, returns [chain], and [css_path_nodes] returns it reversed. *)
Theorem ancestors_and_css_path_nodes (w : World) (self : addr)
    (rest : list addr) (fuel : nat) :
  parent_chain w (self :: rest) = true ->
  length rest < fuel ->
  ancestors fuel w self = Some (Ok (self :: rest))
  /\ css_path_nodes fuel w self = Some (Ok (rev (self :: rest)))
  /\ (forall l, ancestors fuel w self = Some (Ok l) ->
                css_path_nodes fuel w self = Some (Ok (rev l))).
Proof.
  intros Hchain Hfuel.
  assert (ancestors fuel w self = Some (Ok (self :: rest))) as Ha.
  { unfold ancestors.
    by rewrite (ancestors_loop_chain w fuel self rest [self]). }
  assert (css_path_nodes fuel w self = Some (Ok (rev (self :: rest))))
    as Hc.
  { unfold css_path_nodes.
    by rewrite (css_path_nodes_loop_chain w fuel self rest [self]). }
  split; [done|]. split; [done|].
  intros l Hl. rewrite Ha in Hl. by injection Hl as <-.
Qed.
End AncestorFacts.

(** In [Demo.family] the ancestors of the node 3 are 3, 1, 0 and its path
    from the root is 0, 1, 3. *)
Lemma ancestors_and_css_path_nodes_witness :
  ancestors 3 Demo.family 3 = Some (Ok [3; 1; 0])
  /\ css_path_nodes 3 Demo.family 3 = Some (Ok [0; 1; 3])
  /\ (forall l, ancestors 3 Demo.family 3 = Some (Ok l) ->
                css_path_nodes 3 Demo.family 3 = Some (Ok (rev l))).
Proof.
  apply (ancestors_and_css_path_nodes Demo.family 3 [1; 0] 3).
  - reflexivity.
  - cbn. lia.
Defined.

(** ** The resolved text style *)

Section TextStyleFacts.
Context `{R : Rich}.

Lemma node_records_cons (w : World) (a : addr) (n : DOMNode)
    (l : list addr) :
  nodes w !! a = Some n ->
  node_records w (a :: l) = n :: node_records w l.
Proof. intros Hn. unfold node_records. cbn. by rewrite Hn. Qed.

Lemma node_records_app (w : World) (l1 l2 : list addr) :
  node_records w (l1 ++ l2) = (node_records w l1 ++ node_records w l2)%list.
Proof. apply omap_app. Qed.

Lemma parent_chain_exist (w : World) (l : list addr) :
  parent_chain w l = true ->
  Forall (fun x => is_Some (nodes w !! x)) l.
Proof.
  induction l as [|a l IH]; [done|]. intros Hchain.
  apply parent_chain_inv in Hchain as (n & Hn & Hrest).
  constructor; [by exists n|]. destruct l as [|p l]; [constructor|].
  apply IH. by destruct Hrest.
Qed.

Lemma node_records_length (w : World) (l : list addr) :
  Forall (fun x => is_Some (nodes w !! x)) l ->
  length (node_records w l) = length l.
Proof.
  induction 1 as [|a l [n Hn] _ IH]; [done|].
  rewrite (node_records_cons _ _ _ _ Hn). cbn. by rewrite IH.
Qed.

Lemma rich_text_style_loop_foldl (w : World) (l : list addr) :
  Forall (fun x => is_Some (nodes w !! x)) l ->
  forall acc,
    rich_text_style_loop w l acc
    = Ok (foldl rich_text_style_step acc (node_records w l)).
Proof.
  induction 1 as [|a l [n Hn] _ IH]; intros acc; [done|].
  rewrite (node_records_cons _ _ _ _ Hn). cbn. rewrite Hn. apply IH.
Qed.

Lemma node_records_rev (w : World) (l : list addr) :
  Forall (fun x => is_Some (nodes w !! x)) l ->
  node_records w (rev l) = rev (node_records w l).
Proof.
  induction 1 as [|a l [n Hn] _ IH]; [done|].
  rewrite (node_records_cons _ _ _ _ Hn). cbn [rev].
  rewrite node_records_app, IH.
  by rewrite (node_records_cons _ _ _ _ Hn).
Qed.

Lemma composite_background_snoc (path : list DOMNode) (n : DOMNode) :
  composite_background (path ++ [n])
  = if has_rule background_rule n
    then Color_add (composite_background path) (styles_background n)
    else composite_background path.
Proof.
  unfold composite_background. rewrite List.filter_app. cbn [List.filter].
  destruct (has_rule background_rule n).
  - by rewrite fmap_app, foldl_app.
  - by rewrite app_nil_r.
Qed.

Lemma combined_text_style_snoc (path : list DOMNode) (n : DOMNode) :
  combined_text_style (path ++ [n])
  = Style_add (combined_text_style path) (styles_text_style n).
Proof.
  unfold combined_text_style. by rewrite fmap_app, foldl_app.
Qed.

Lemma nearest_color_cons (n : DOMNode) (chain : list DOMNode) :
  nearest_color (n :: chain)
  = if has_rule color_rule n then styles_color n
    else nearest_color chain.
Proof. unfold nearest_color. cbn. by destruct (has_rule color_rule n). Qed.

(** The three local variables of the loop, after the loop has run over
    [path], are the three values that the specification names. *)
Lemma rich_text_style_foldl (path : list DOMNode) :
  foldl rich_text_style_step
        (mkAcc (mkColor 0 0 0 0) (mkColor 255 255 255 0) Style_null) path
  = mkAcc (composite_background path) (nearest_color (rev path))
          (combined_text_style path).
Proof.
  induction path as [|n path IH] using rev_ind; [done|].
  rewrite foldl_app. cbn [foldl]. rewrite IH.
  rewrite rev_unit, nearest_color_cons, composite_background_snoc,
    combined_text_style_snoc.
  reflexivity.
Qed.

(** C9. When [self :: rest] is the chain of the ancestors of [self],
    [rich_text_style] reads the nodes of the chain from the root to
    [self]; the background of its result is the composite of the
    backgrounds of the nodes that set one, taken in that order over the
    transparent black; the colour is that of the node nearest to [self],
    itself included, that sets one, and the transparent white when none
    does; the text attributes are those of all the nodes, combined in
    that order. *)
Theorem rich_text_style_resolved (w : World) (self : addr)
    (rest : list addr) (fuel : nat) :
  parent_chain w (self :: rest) = true ->
  length rest < fuel ->
  length (node_records w (self :: rest)) = S (length rest)
  /\ rich_text_style fuel w self
     = Some (Ok (Style_add
                   (Style_new
                      (rich_color
                         (composite_background
                            (rev (node_records w (self :: rest)))))
                      (rich_color
                         (nearest_color (node_records w (self :: rest)))))
                   (combined_text_style
                      (rev (node_records w (self :: rest)))))).
Proof.
  intros Hchain Hfuel.
  pose proof (parent_chain_exist _ _ Hchain) as Hex.
  split; [by rewrite node_records_length|].
  unfold rich_text_style, ancestors.
  rewrite (ancestors_loop_chain w fuel self rest [self] Hchain Hfuel).
  change ([self] ++ rest)%list with (self :: rest).
  rewrite rich_text_style_loop_foldl by (by apply Forall_rev).
  rewrite node_records_rev by done.
  rewrite rich_text_style_foldl. cbn [acc_background acc_color acc_style].
  by rewrite rev_involutive.
Qed.
End TextStyleFacts.

(** In [Demo.painted] the text style of the node 2 has the background of
    the node 1 over that of the root, the colour of the root and the
    attributes of the root and of the node 2. *)
Lemma rich_text_style_resolved_witness :
  length (node_records Demo.painted [2; 1; 0]) = 3
  /\ rich_text_style 3 Demo.painted 2
     = Some (Ok ([Demo.grey; Demo.blue], ["bold"; "italic"])).
Proof.
  apply (rich_text_style_resolved Demo.painted 2 [1; 0] 3).
  - reflexivity.
  - cbn. lia.
Defined.

(** ** The display and visible setters *)

Section DisplayFacts.
Context `{R : Rich}.

Lemma styles_display_stored (n : DOMNode) (v : string) :
  styles_display
    (with_inline_styles (with_display (Some v) (_inline_styles n)) n) = v.
Proof. reflexivity. Qed.

Lemma styles_visibility_stored (n : DOMNode) (v : string) :
  styles_visibility
    (with_inline_styles (with_visibility (Some v) (_inline_styles n)) n)
  = v.
Proof. reflexivity. Qed.

(** C4. The display setter stores block for True and none for False,
    stores a string of VALID_DISPLAY as it is, and for any other string
    raises the StyleValueError whose message holds the repr of the string
    and the friendly list of VALID_DISPLAY, the store being left as it
    was; the stored value is the one the merged view then reads. The
    visible setter does the same with visible, hidden and
    VALID_VISIBILITY. *)
Theorem display_and_visible_setters (w : World) (self : addr)
    (n : DOMNode) :
  nodes w !! self = Some n ->
  ((forall b : bool,
      display_set self (PyBool b) w
      = (Ok tt, display_stored w self n (if b then "block" else "none")))
   /\ (forall s, s ∈ VALID_DISPLAY ->
         display_set self (PyStr s) w
         = (Ok tt, display_stored w self n s))
   /\ (forall s, s ∉ VALID_DISPLAY ->
         display_set self (PyStr s) w
         = (Raise (StyleValueError
                     ("invalid value for display (received "
                        ++ repr_str s ++ ", expected "
                        ++ friendly_list VALID_DISPLAY ++ ")")), w))
   /\ (forall v, exists n',
         nodes (display_stored w self n v) !! self = Some n'
         /\ styles_display n' = v
         /\ styles_visibility n' = styles_visibility n))
  /\ ((forall b : bool,
         visible_set self (PyBool b) w
         = (Ok tt,
            visibility_stored w self n (if b then "visible" else "hidden")))
      /\ (forall s, s ∈ VALID_VISIBILITY ->
            visible_set self (PyStr s) w
            = (Ok tt, visibility_stored w self n s))
      /\ (forall s, s ∉ VALID_VISIBILITY ->
            visible_set self (PyStr s) w
            = (Raise (StyleValueError
                        ("invalid value for visibility (received "
                           ++ repr_str s ++ ", expected "
                           ++ friendly_list VALID_VISIBILITY ++ ")")), w))
      /\ (forall v, exists n',
            nodes (visibility_stored w self n v) !! self = Some n'
            /\ styles_visibility n' = v
            /\ styles_display n' = styles_display n)).
Proof.
  intros Hn. split; repeat split.
  - intros b. cbn. unfold styles_set_display.
    by rewrite (modify_node_run _ _ _ _ Hn).
  - intros s Hs. cbn. rewrite bool_decide_eq_true_2 by done.
    unfold styles_set_display. by rewrite (modify_node_run _ _ _ _ Hn).
  - intros s Hs. cbn. by rewrite bool_decide_eq_false_2 by done.
  - intros v. eexists. cbn. rewrite lookup_insert_eq.
    split; [reflexivity|]. split; reflexivity.
  - intros b. cbn. unfold styles_set_visibility.
    by rewrite (modify_node_run _ _ _ _ Hn).
  - intros s Hs. cbn. rewrite bool_decide_eq_true_2 by done.
    unfold styles_set_visibility. by rewrite (modify_node_run _ _ _ _ Hn).
  - intros s Hs. cbn. by rewrite bool_decide_eq_false_2 by done.
  - intros v. eexists. cbn. rewrite lookup_insert_eq.
    split; [reflexivity|]. split; reflexivity.
Qed.
End DisplayFacts.

(** The setters on the enabled button of [Demo.buttons]. *)
Lemma display_and_visible_setters_witness :
  display_set 0 (PyBool false) Demo.buttons
  = (Ok tt, display_stored Demo.buttons 0
              (Demo.button {[ "-default" ]} Demo.no_styles false) "none")
  /\ display_set 0 (PyStr "inline") Demo.buttons
     = (Raise (StyleValueError
                 ("invalid value for display (received 'inline', expected "
                    ++ friendly_list VALID_DISPLAY ++ ")")), Demo.buttons)
  /\ visible_set 0 (PyStr "hidden") Demo.buttons
     = (Ok tt, visibility_stored Demo.buttons 0
                 (Demo.button {[ "-default" ]} Demo.no_styles false)
                 "hidden").
Proof.
  destruct (display_and_visible_setters Demo.buttons 0
              (Demo.button {[ "-default" ]} Demo.no_styles false) eq_refl)
    as [(Hbool & _ & Hbad & _) (_ & Hgood & _)].
  split; [exact (Hbool false)|]. split.
  - apply (Hbad "inline"). vm_compute. discriminate.
  - apply (Hgood "hidden"). vm_compute. reflexivity.
Defined.

(** ** Class mutation *)

Section ClassFacts.
Context `{R : Rich} `{S : !Stylesheet}.

Lemma symmetric_difference_involutive (s t : gset string) :
  symmetric_difference (symmetric_difference s t) t = s.
Proof.
  unfold symmetric_difference. apply set_eq. intros x.
  rewrite !elem_of_union, !elem_of_difference, !elem_of_union,
    !elem_of_difference.
  destruct (decide (x ∈ t)), (decide (x ∈ s)); tauto.
Qed.

(** What [update_styles] does: nothing without an application; with one,
    the cascade layer of every object is recomputed and the request is
    recorded. *)
Lemma update_styles_run (w : World) (self : addr) :
  update_styles self w
  = match active_app w with
    | None => (Ok tt, w)
    | Some a => stylesheet_update a true w
    end.
Proof.
  unfold update_styles, try_except_LookupError, bind, app, refresh, ret.
  cbv beta. destruct (active_app w) as [a|] eqn:Happ; [|reflexivity].
  cbv iota beta. rewrite Happ. reflexivity.
Qed.

(** The shape shared by the three class mutators: the class set of
    [self] becomes [f] of what it was, whether or not an application is
    attached, and the call returns normally. *)
Lemma mutate_classes_run (f : gset string -> gset string) (w : World)
    (self : addr) (n : DOMNode) :
  nodes w !! self = Some n ->
  exists w' css,
    (modify_node self (fun n => with_classes (f (_classes n)) n) ;;;
     update_styles self) w = (Ok tt, w')
    /\ nodes w' !! self
       = Some (with_css_styles css (with_classes (f (_classes n)) n))
    /\ active_app w' = active_app w
    /\ (active_app w = None ->
        w' = classes_stored w self n (f (_classes n)))
    /\ (forall a, active_app w = Some a ->
          trace w' = (trace w ++ [Stylesheet_update a true])%list).
Proof.
  intros Hn. unfold bind. rewrite (modify_node_run _ _ _ _ Hn).
  rewrite update_styles_run. cbn [active_app].
  destruct (active_app w) as [a|] eqn:Happ.
  - do 2 eexists. split; [reflexivity|]. cbn.
    rewrite map_lookup_imap, lookup_insert_eq. cbn.
    split; [reflexivity|]. split; [done|]. split; [done|].
    intros a' [= <-]. reflexivity.
  - exists (classes_stored w self n (f (_classes n))), (_css_styles n).
    unfold classes_stored. rewrite Happ. split; [reflexivity|]. cbn.
    rewrite lookup_insert_eq.
    split; [reflexivity|]. split; [done|]. split; [done|]. done.
Qed.

(** C5. Each of [add_class], [remove_class] and [toggle_class] returns
    normally and leaves the node with the union, the difference and the
    symmetric difference of its class set and the given names; when no
    application is attached nothing else in the store changes, the
    requests to the application included. *)
Theorem class_mutators_succeed (w : World) (self : addr) (n : DOMNode)
    (class_names : list string) :
  nodes w !! self = Some n ->
  (exists w',
     add_class self class_names w = (Ok tt, w')
     /\ classes_of w' self
        = Some (_classes n ∪ list_to_set class_names)
     /\ (active_app w = None ->
         w' = classes_stored w self n
                (_classes n ∪ list_to_set class_names)))
  /\ (exists w',
        remove_class self class_names w = (Ok tt, w')
        /\ classes_of w' self
           = Some (_classes n ∖ list_to_set class_names)
        /\ (active_app w = None ->
            w' = classes_stored w self n
                   (_classes n ∖ list_to_set class_names)))
  /\ (exists w',
        toggle_class self class_names w = (Ok tt, w')
        /\ classes_of w' self
           = Some (symmetric_difference (_classes n)
                                        (list_to_set class_names))
        /\ (active_app w = None ->
            w' = classes_stored w self n
                   (symmetric_difference (_classes n)
                                         (list_to_set class_names)))).
Proof.
  intros Hn. repeat split.
  - destruct (mutate_classes_run (fun c => c ∪ list_to_set class_names)
                w self n Hn) as (w' & css & Hrun & Hw' & _ & Hnone & _).
    exists w'. unfold classes_of. rewrite Hw'. by repeat split.
  - destruct (mutate_classes_run (fun c => c ∖ list_to_set class_names)
                w self n Hn) as (w' & css & Hrun & Hw' & _ & Hnone & _).
    exists w'. unfold classes_of. rewrite Hw'. by repeat split.
  - destruct (mutate_classes_run
                (fun c => symmetric_difference c (list_to_set class_names))
                w self n Hn) as (w' & css & Hrun & Hw' & _ & Hnone & _).
    exists w'. unfold classes_of. rewrite Hw'. by repeat split.
Qed.

(** C6. Two calls of [toggle_class] with the same names, one after the
    other, both return normally and leave the node with the class set
    that it had before the first call. *)
Theorem toggle_class_twice (w : World) (self : addr) (n : DOMNode)
    (class_names : list string) :
  nodes w !! self = Some n ->
  exists w1 w2,
    toggle_class self class_names w = (Ok tt, w1)
    /\ toggle_class self class_names w1 = (Ok tt, w2)
    /\ classes_of w2 self = Some (_classes n)
    /\ classes_of w2 self = classes_of w self.
Proof.
  intros Hn.
  destruct (mutate_classes_run
              (fun c => symmetric_difference c (list_to_set class_names))
              w self n Hn) as (w1 & css1 & Hrun1 & Hw1 & _).
  destruct (mutate_classes_run
              (fun c => symmetric_difference c (list_to_set class_names))
              w1 self _ Hw1) as (w2 & css2 & Hrun2 & Hw2 & _).
  exists w1, w2. split; [exact Hrun1|]. split; [exact Hrun2|].
  unfold classes_of. rewrite Hw2, Hn. cbn.
  by rewrite symmetric_difference_involutive.
Qed.
End ClassFacts.

(** The three mutators on the enabled button of [Demo.buttons], to which no
    application is attached. *)
Lemma class_mutators_succeed_witness :
  (exists w',
     add_class 0 ["-active"; "-default"] Demo.buttons = (Ok tt, w')
     /\ classes_of w' 0 = Some {[ "-default"; "-active" ]}
     /\ trace w' = [])
  /\ (exists w',
        remove_class 0 ["-default"] Demo.buttons = (Ok tt, w')
        /\ classes_of w' 0 = Some ∅)
  /\ (exists w',
        toggle_class 0 ["-active"; "-default"] Demo.buttons = (Ok tt, w')
        /\ classes_of w' 0 = Some {[ "-active" ]}).
Proof.
  split; [|split].
  - destruct (proj1 (class_mutators_succeed Demo.buttons 0
                       (Demo.button {[ "-default" ]} Demo.no_styles false)
                       ["-active"; "-default"] eq_refl))
      as (w' & Hrun & Hcls & Hnone).
    exists w'. split; [exact Hrun|]. split.
    + rewrite Hcls. reflexivity.
    + rewrite (Hnone eq_refl). reflexivity.
  - destruct (proj1 (proj2 (class_mutators_succeed Demo.buttons 0
                       (Demo.button {[ "-default" ]} Demo.no_styles false)
                       ["-default"] eq_refl)))
      as (w' & Hrun & Hcls & _).
    exists w'. split; [exact Hrun|].
    rewrite Hcls. reflexivity.
  - destruct (proj2 (proj2 (class_mutators_succeed Demo.buttons 0
                       (Demo.button {[ "-default" ]} Demo.no_styles false)
                       ["-active"; "-default"] eq_refl)))
      as (w' & Hrun & Hcls & _).
    exists w'. split; [exact Hrun|].
    rewrite Hcls. reflexivity.
Defined.

(** Two toggles on the enabled button of [Demo.buttons_mounted], to which
    an application is attached. *)
Lemma toggle_class_twice_witness :
  exists w1 w2,
    toggle_class 0 ["-active"; "-default"] Demo.buttons_mounted = (Ok tt, w1)
    /\ toggle_class 0 ["-active"; "-default"] w1 = (Ok tt, w2)
    /\ classes_of w2 0 = Some {[ "-default" ]}
    /\ classes_of w2 0 = classes_of Demo.buttons_mounted 0.
Proof.
  apply (toggle_class_twice Demo.buttons_mounted 0
           (Demo.button {[ "-default" ]} Demo.no_styles false)
           ["-active"; "-default"] eq_refl).
Defined.

(** ** The active effect of a button *)

Section ButtonFacts.
Context `{R : Rich} `{S : !Stylesheet}.

Lemma bind_ok {A B} (m : M A) (k : A -> M B) (w w' : World) (x : A) :
  m w = (Ok x, w') -> bind m k w = k x w'.
Proof. intros H. unfold bind. by rewrite H. Qed.

Lemma display_get_run (w : World) (self : addr) (n : DOMNode) :
  nodes w !! self = Some n ->
  display_get self w = (Ok (bool_decide (styles_display n ≠ "none")), w).
Proof.
  intros Hn. unfold display_get.
  by rewrite (bind_ok _ _ _ _ _ (get_node_run _ _ _ Hn)).
Qed.

(** C10. [press] on an enabled and displayed button returns the button;
    the button then has the class -active besides the classes it had,
    one more pending timer, whose delay is ACTIVE_EFFECT_DURATION, that
    is 0.3, and whose callback removes the class -active, and one more
    posted message, Pressed; processing the expiry of that timer leaves
    the button with the classes it had before the press except -active,
    its timers and messages untouched. [press] on a disabled or
    undisplayed button returns the button and leaves the store as it
    was. *)
Theorem press_active_effect (w : World) (self : addr) (n : DOMNode) :
  nodes w !! self = Some n ->
  (disabled n = false -> styles_display n <> "none" ->
   exists w1 n1,
     press self w = (Ok self, w1)
     /\ nodes w1 !! self = Some n1
     /\ _classes n1 = _classes n ∪ {[ "-active" ]}
     /\ ("-active" ∈ _classes n1)
     /\ _timers n1
        = (_timers n
             ++ [mkTimer ACTIVE_EFFECT_DURATION
                   (partial_remove_class self ["-active"])])%list
     /\ ACTIVE_EFFECT_DURATION = 0.3%Q
     /\ _message_queue n1
        = (_message_queue n ++ [Button_Pressed self])%list
     /\ exists w2 n2,
          process_expiry
            (mkTimer ACTIVE_EFFECT_DURATION
               (partial_remove_class self ["-active"])) w1
          = (Ok tt, w2)
          /\ nodes w2 !! self = Some n2
          /\ _classes n2 = _classes n ∖ {[ "-active" ]}
          /\ ("-active" ∉ _classes n2)
          /\ _timers n2 = _timers n1
          /\ _message_queue n2 = _message_queue n1)
  /\ (disabled n = true \/ styles_display n = "none" ->
      press self w = (Ok self, w)).
Proof.
  intros Hn. split.
  - intros Hen Hdisp. unfold press.
    rewrite (bind_ok _ _ _ _ _ (get_node_run _ _ _ Hn)).
    rewrite (bind_ok _ _ _ _ _ (display_get_run _ _ _ Hn)).
    rewrite Hen, bool_decide_eq_true_2 by done. cbn [orb negb].
    destruct (mutate_classes_run (fun c => c ∪ list_to_set ["-active"])
                w self n Hn) as (wa & css & Hadd & Hwa & _).
    erewrite bind_ok; cycle 1.
    { unfold _start_active_affect, add_class.
      rewrite (bind_ok _ _ _ _ _ Hadd). unfold set_timer.
      rewrite (modify_node_run _ _ _ _ Hwa). reflexivity. }
    erewrite bind_ok; cycle 1.
    { unfold post_message. erewrite modify_node_run; [reflexivity|].
      cbn. apply lookup_insert_eq. }
    unfold ret. do 2 eexists. split; [reflexivity|]. cbn.
    rewrite lookup_insert_eq. split; [reflexivity|]. cbn.
    split; [apply set_eq; intros x; set_facts|]. split; [set_facts|].
    split; [reflexivity|]. split; [reflexivity|]. split; [reflexivity|].
    unfold process_expiry, invoke. cbn [timer_callback].
    match goal with
    | |- context [remove_class self _ ?w1] =>
        destruct (mutate_classes_run
                    (fun c => c ∖ list_to_set ["-active"]) w1 self _
                    (lookup_insert_eq _ _ _))
          as (w2 & css2 & Hrem & Hw2 & _)
    end.
    exists w2. eexists. split; [exact Hrem|]. split; [exact Hw2|]. cbn.
    split; [apply set_eq; intros x; set_facts|]. split; [set_facts|].
    split; reflexivity.
  - intros Hoff. unfold press.
    rewrite (bind_ok _ _ _ _ _ (get_node_run _ _ _ Hn)).
    rewrite (bind_ok _ _ _ _ _ (display_get_run _ _ _ Hn)).
    destruct Hoff as [-> | Hnone]; [reflexivity|].
    rewrite bool_decide_eq_false_2 by (intros H; by apply H).
    by rewrite orb_true_r.
Qed.
End ButtonFacts.

(** The three buttons of [Demo.buttons]: the press of the enabled and
    displayed one starts the effect, the press of the disabled one and of
    the undisplayed one changes nothing. *)
Lemma press_active_effect_witness :
  (exists w1 n1,
     press 0 Demo.buttons = (Ok 0, w1)
     /\ nodes w1 !! 0 = Some n1
     /\ _classes n1 = {[ "-default" ]} ∪ {[ "-active" ]}
     /\ _timers n1 = [mkTimer 0.3 (partial_remove_class 0 ["-active"])]
     /\ _message_queue n1 = [Button_Pressed 0])
  /\ press 1 Demo.buttons = (Ok 1, Demo.buttons)
  /\ press 2 Demo.buttons = (Ok 2, Demo.buttons).
Proof.
  split; [|split].
  - destruct (proj1 (press_active_effect Demo.buttons 0
                       (Demo.button {[ "-default" ]} Demo.no_styles false)
                       eq_refl) eq_refl)
      as (w1 & n1 & Hrun & Hn1 & Hcls & _ & Htimers & _ & Hqueue & _).
    + vm_compute. discriminate.
    + exists w1, n1. repeat split; assumption.
  - apply (proj2 (press_active_effect Demo.buttons 1
                    (Demo.button {[ "-default" ]} Demo.no_styles true)
                    eq_refl)).
    left. reflexivity.
  - apply (proj2 (press_active_effect Demo.buttons 2
                    (Demo.button {[ "-default" ]}
                       (mkStyles (Some "none") None None None None) false)
                    eq_refl)).
    right. reflexivity.
Defined.

(** ** Further facts on the traversals *)

Section MoreTraversalFacts.
Context `{R : Rich}.

Lemma css_path_nodes_loop_rev (w : World) (fuel : nat) :
  forall (a : addr) (acc : list addr),
    css_path_nodes_loop fuel w a acc
    = res_map (@rev addr) (ancestors_loop fuel w a acc).
Proof.
  induction fuel as [|fuel IH]; intros a acc; [done|]. cbn.
  destruct (nodes w !! a) as [n|]; [|done].
  destruct (_parent n) as [p|]; [apply IH | done].
Qed.

(** [css_path_nodes] is the reverse of [ancestors] on every store and for
    every fuel: the two return, raise and run out of fuel together. *)
Theorem css_path_nodes_is_reversed_ancestors (w : World) (self : addr)
    (fuel : nat) :
  css_path_nodes fuel w self = res_map (@rev addr) (ancestors fuel w self).
Proof. apply css_path_nodes_loop_rev. Qed.

Lemma ancestors_loop_sound (w : World) (fuel : nat) :
  forall (a : addr) (acc l : list addr),
    ancestors_loop fuel w a acc = Some (Ok l) ->
    exists rest,
      l = (acc ++ rest)%list
      /\ parent_chain w (a :: rest) = true
      /\ length rest < fuel.
Proof.
  induction fuel as [|fuel IH]; intros a acc l Hrun; [done|].
  cbn in Hrun. destruct (nodes w !! a) as [n|] eqn:Hn; [|done].
  destruct (_parent n) as [p|] eqn:Hp.
  - apply IH in Hrun as (rest & -> & Hchain & Hlen).
    exists (p :: rest). split; [reassociate|]. split; [|cbn; lia].
    cbn [parent_chain]. rewrite Hn, Hp.
    rewrite bool_decide_eq_true_2 by done. exact Hchain.
  - injection Hrun as <-. exists []. split; [by rewrite app_nil_r|].
    split; [|cbn; lia]. cbn. rewrite Hn, Hp. by apply bool_decide_eq_true_2.
Qed.

(** [ancestors] returns a list exactly when that list is the node followed
    by its successive parents up to a node without parent and the fuel
    exceeds the number of those parents. *)
Theorem ancestors_returns_iff_chain (w : World) (self : addr)
    (l : list addr) (fuel : nat) :
  ancestors fuel w self = Some (Ok l)
  <-> exists rest,
        l = self :: rest
        /\ parent_chain w (self :: rest) = true
        /\ length rest < fuel.
Proof.
  split.
  - intros Hrun. apply ancestors_loop_sound in Hrun as (rest & -> & H).
    by exists rest.
  - intros (rest & -> & Hchain & Hlen). unfold ancestors.
    by rewrite (ancestors_loop_chain w fuel self rest [self]).
Qed.

Lemma parent_links_step (w : World) (last : addr) (l : list addr) :
  parent_links w l last = true ->
  forall x, x ∈ l ->
    exists n p, nodes w !! x = Some n /\ _parent n = Some p
                /\ (p ∈ l \/ p = last).
Proof.
  induction l as [|y l IH]; intros Hl x Hx; [by apply elem_of_nil in Hx|].
  cbn in Hl. destruct (nodes w !! y) as [n|] eqn:Hn; [|done].
  apply andb_true_iff in Hl as [Hp Hl]. apply bool_decide_eq_true in Hp.
  apply elem_of_cons in Hx as [->|Hx].
  - exists n, (hd last l). split; [done|]. split; [done|].
    destruct l as [|z l]; [by right|]. left. cbn.
    apply elem_of_cons. right. apply elem_of_cons. by left.
  - destruct (IH Hl x Hx) as (n' & p & Hn' & Hp' & Hin).
    exists n', p. split; [done|]. split; [done|].
    destruct Hin as [Hin| ->]; [left|by right]. by apply elem_of_cons; right.
Qed.

Lemma ancestors_loop_cycle (w : World) (l : list addr) :
  parent_cycle w l = true ->
  forall fuel a acc, a ∈ l -> ancestors_loop fuel w a acc = None.
Proof.
  intros Hcycle.
  assert (forall x, x ∈ l ->
            exists n p, nodes w !! x = Some n /\ _parent n = Some p
                        /\ p ∈ l) as Hstep.
  { destruct l as [|y l]; [done|]. cbn [parent_cycle] in Hcycle.
    intros x Hx.
    destruct (parent_links_step _ _ _ Hcycle x Hx)
      as (n & p & Hn & Hp & [Hin|Heq]); exists n, p;
      (split; [done|]); (split; [done|]); [done|].
    rewrite Heq. apply elem_of_cons. by left. }
  induction fuel as [|fuel IH]; intros a acc Ha; [done|].
  destruct (Hstep a Ha) as (n & p & Hn & Hp & Hin).
  cbn. rewrite Hn, Hp. by apply IH.
Qed.

(** When the parent back-references from a node lead around a cycle,
    [ancestors] and [css_path_nodes] return nothing, whatever the fuel:
    their loops do not end. *)
Theorem ancestors_diverges_on_cycle (w : World) (self : addr)
    (rest : list addr) :
  parent_cycle w (self :: rest) = true ->
  forall fuel,
    ancestors fuel w self = None /\ css_path_nodes fuel w self = None.
Proof.
  intros Hcycle fuel.
  assert (ancestors fuel w self = None) as Ha.
  { apply (ancestors_loop_cycle w (self :: rest) Hcycle).
    apply elem_of_cons. by left. }
  split; [exact Ha|]. unfold css_path_nodes, ancestors in *.
  by rewrite css_path_nodes_loop_rev, Ha.
Qed.
End MoreTraversalFacts.

(** In [Cases.own_parent] the node 0 was added to itself by [add_child]; it
    is its own parent, and its ancestors are never returned. *)
Lemma ancestors_diverges_on_cycle_witness :
  add_child 0 0 Demo.detached = (Ok tt, Cases.own_parent)
  /\ forall fuel,
       ancestors fuel Cases.own_parent 0 = None
       /\ css_path_nodes fuel Cases.own_parent 0 = None.
Proof.
  split; [reflexivity|].
  apply (ancestors_diverges_on_cycle Cases.own_parent 0 []). reflexivity.
Defined.

Section WithSelfFacts.
Context `{R : Rich}.

Lemma walk_children_loop_prefix (w : World) (fuel : nat) :
  forall (stack : list (list addr)) (pre out : list addr),
    walk_children_loop fuel w stack (pre ++ out)
    = res_map (List.app pre) (walk_children_loop fuel w stack out).
Proof.
  induction fuel as [|fuel IH]; intros stack pre out; [done|]. cbn.
  destruct stack as [|[|node it] stack]; [done | apply IH |].
  destruct (nodes w !! node) as [n|]; [|done].
  destruct (children n); rewrite <- app_assoc; apply IH.
Qed.

(** On every store and for every fuel, [walk_children] with [with_self]
    yields the node and then exactly what it yields without [with_self];
    the two raise and run out of fuel together. *)
Theorem walk_children_with_self (w : World) (self : addr) (fuel : nat) :
  walk_children fuel w self true
  = res_map (cons self) (walk_children fuel w self false).
Proof.
  unfold walk_children. destruct (nodes w !! self) as [n|]; [|done].
  apply (walk_children_loop_prefix w fuel [children n] [self] []).
Qed.
End WithSelfFacts.

(** ** Further facts on composition *)

Section MoreCompositionFacts.
Context `{R : Rich}.







End MoreCompositionFacts.

Section AddChildrenFacts.
Context `{R : Rich}.



End AddChildrenFacts.



Section FindAddedChild.
Context `{R : Rich}.




End FindAddedChild.



Section GrowingTrees.
Context `{R : Rich}.


End GrowingTrees.


Section Reparenting.
Context `{R : Rich}.

End Reparenting.


Section WalkAfterAdd.
Context `{R : Rich}.

Lemma forallb_ext_Forall {A} (f g : A -> bool) (l : list A) :
  Forall (fun x => f x = g x) l -> forallb f l = forallb g l.
Proof. induction 1 as [|x l Hx _ IH]; cbn; [done|]. by rewrite Hx, IH. Qed.


End WalkAfterAdd.


(** ** Further facts on display and visibility *)

Section MoreDisplayFacts.
Context `{R : Rich}.

Lemma visible_get_run (w : World) (self : addr) (n : DOMNode) :
  nodes w !! self = Some n ->
  visible_get self w
  = (Ok (bool_decide (styles_visibility n ≠ "hidden")), w).
Proof.
  intros Hn. unfold visible_get.
  by rewrite (bind_ok _ _ _ _ _ (get_node_run _ _ _ Hn)).
Qed.

Lemma display_set_bool_run (w : World) (self : addr) (n : DOMNode)
    (b : bool) :
  nodes w !! self = Some n ->
  display_set self (PyBool b) w
  = (Ok tt, display_stored w self n (if b then "block" else "none")).
Proof.
  intros Hn. cbn. unfold styles_set_display.
  by rewrite (modify_node_run _ _ _ _ Hn).
Qed.

Lemma display_set_str_run (w : World) (self : addr) (n : DOMNode)
    (s : string) :
  nodes w !! self = Some n -> s ∈ VALID_DISPLAY ->
  display_set self (PyStr s) w = (Ok tt, display_stored w self n s).
Proof.
  intros Hn Hs. cbn. rewrite bool_decide_eq_true_2 by done.
  unfold styles_set_display. by rewrite (modify_node_run _ _ _ _ Hn).
Qed.

Lemma visible_set_bool_run (w : World) (self : addr) (n : DOMNode)
    (b : bool) :
  nodes w !! self = Some n ->
  visible_set self (PyBool b) w
  = (Ok tt, visibility_stored w self n (if b then "visible" else "hidden")).
Proof.
  intros Hn. cbn. unfold styles_set_visibility.
  by rewrite (modify_node_run _ _ _ _ Hn).
Qed.

Lemma visible_set_str_run (w : World) (self : addr) (n : DOMNode)
    (s : string) :
  nodes w !! self = Some n -> s ∈ VALID_VISIBILITY ->
  visible_set self (PyStr s) w = (Ok tt, visibility_stored w self n s).
Proof.
  intros Hn Hs. cbn. rewrite bool_decide_eq_true_2 by done.
  unfold styles_set_visibility. by rewrite (modify_node_run _ _ _ _ Hn).
Qed.

Lemma display_stored_lookup (w : World) (self : addr) (n : DOMNode)
    (v : string) :
  nodes (display_stored w self n v) !! self
  = Some (with_inline_styles (with_display (Some v) (_inline_styles n)) n).
Proof. cbn. apply lookup_insert_eq. Qed.

Lemma visibility_stored_lookup (w : World) (self : addr) (n : DOMNode)
    (v : string) :
  nodes (visibility_stored w self n v) !! self
  = Some (with_inline_styles (with_visibility (Some v) (_inline_styles n))
                             n).
Proof. cbn. apply lookup_insert_eq. Qed.

(** What is set through the [display] setter is what the [display] getter
    then reads: the boolean itself, and for a valid string whether it
    differs from none; the [visible] getter reads what it read before. The
    same holds for the [visible] setter and getter, with hidden, and the
    [display] getter is not affected. *)
Theorem display_and_visible_round_trip (w : World) (self : addr)
    (n : DOMNode) :
  nodes w !! self = Some n ->
  (forall b : bool, exists w',
     display_set self (PyBool b) w = (Ok tt, w')
     /\ display_get self w' = (Ok b, w')
     /\ visible_get self w' = (Ok (visible w self), w'))
  /\ (forall s, s ∈ VALID_DISPLAY -> exists w',
        display_set self (PyStr s) w = (Ok tt, w')
        /\ display_get self w' = (Ok (bool_decide (s ≠ "none")), w')
        /\ visible_get self w' = (Ok (visible w self), w'))
  /\ (forall b : bool, exists w',
        visible_set self (PyBool b) w = (Ok tt, w')
        /\ visible_get self w' = (Ok b, w')
        /\ display_get self w' = (Ok (displayed w self), w'))
  /\ (forall s, s ∈ VALID_VISIBILITY -> exists w',
        visible_set self (PyStr s) w = (Ok tt, w')
        /\ visible_get self w' = (Ok (bool_decide (s ≠ "hidden")), w')
        /\ display_get self w' = (Ok (displayed w self), w')).
Proof.
  intros Hn.
  unfold visible, displayed. rewrite Hn.
  split; [|split; [|split]].
  - intros b. eexists. split; [exact (display_set_bool_run _ _ _ b Hn)|].
    rewrite (display_get_run _ _ _ (display_stored_lookup _ _ _ _)).
    rewrite (visible_get_run _ _ _ (display_stored_lookup _ _ _ _)).
    split; [|reflexivity]. by destruct b.
  - intros s Hs. eexists. split; [exact (display_set_str_run _ _ _ s Hn Hs)|].
    rewrite (display_get_run _ _ _ (display_stored_lookup _ _ _ _)).
    rewrite (visible_get_run _ _ _ (display_stored_lookup _ _ _ _)).
    split; reflexivity.
  - intros b. eexists. split; [exact (visible_set_bool_run _ _ _ b Hn)|].
    rewrite (display_get_run _ _ _ (visibility_stored_lookup _ _ _ _)).
    rewrite (visible_get_run _ _ _ (visibility_stored_lookup _ _ _ _)).
    split; [|reflexivity]. by destruct b.
  - intros s Hs. eexists. split; [exact (visible_set_str_run _ _ _ s Hn Hs)|].
    rewrite (display_get_run _ _ _ (visibility_stored_lookup _ _ _ _)).
    rewrite (visible_get_run _ _ _ (visibility_stored_lookup _ _ _ _)).
    split; reflexivity.
Qed.
End MoreDisplayFacts.

(** The node 3 of [Cases.gallery] is displayed and hidden: set displayed
    off, it reads as not displayed and still not visible; set visible on,
    it reads as visible and still displayed. *)
Lemma display_and_visible_round_trip_witness :
  (exists w',
     display_set 3 (PyBool false) Cases.gallery = (Ok tt, w')
     /\ display_get 3 w' = (Ok false, w')
     /\ visible_get 3 w' = (Ok false, w'))
  /\ (exists w',
        visible_set 3 (PyBool true) Cases.gallery = (Ok tt, w')
        /\ visible_get 3 w' = (Ok true, w')
        /\ display_get 3 w' = (Ok true, w')).
Proof.
  destruct (display_and_visible_round_trip Cases.gallery 3
              (Demo.styled (Some 0)
                 (mkStyles None (Some "hidden") None None None)) eq_refl)
    as (Hd & _ & Hv & _).
  split; [exact (Hd false) | exact (Hv true)].
Defined.

Section DisplayForgets.
Context `{R : Rich}.

(** Setting [display] to False and then to True leaves the node with the
    display block, whatever display it had before: the earlier value is
    not restored. *)
Theorem display_off_on_resets_to_block (w : World) (self : addr)
    (n : DOMNode) :
  nodes w !! self = Some n ->
  exists w1 w2 n2,
    display_set self (PyBool false) w = (Ok tt, w1)
    /\ display_set self (PyBool true) w1 = (Ok tt, w2)
    /\ nodes w2 !! self = Some n2
    /\ styles_display n2 = "block"
    /\ (styles_display n <> "block" -> styles_display n2 <> styles_display n)
    /\ display_get self w2 = (Ok true, w2).
Proof.
  intros Hn. do 3 eexists.
  split; [exact (display_set_bool_run _ _ _ false Hn)|].
  split; [exact (display_set_bool_run _ _ _ true
                   (display_stored_lookup _ _ _ _))|].
  split; [apply display_stored_lookup|].
  split; [reflexivity|]. split; [intros Hne; cbn; congruence|].
  by rewrite (display_get_run _ _ _ (display_stored_lookup _ _ _ _)).
Qed.

Lemma comprehension_run (w : World) (keep : addr -> M bool)
    (f : addr -> bool) (cs : list addr) :
  Forall (fun c => keep c w = (Ok (f c), w)) cs ->
  comprehension keep cs w = (Ok (List.filter f cs), w).
Proof.
  induction 1 as [|c cs Hc _ IH]; [done|]. cbn [comprehension List.filter].
  rewrite (bind_ok _ _ _ _ _ Hc), (bind_ok _ _ _ _ _ IH).
  unfold ret. by destruct (f c).
Qed.

Lemma display_get_displayed (w : World) (c : addr) :
  is_Some (nodes w !! c) -> display_get c w = (Ok (displayed w c), w).
Proof.
  intros [n Hn]. unfold displayed. rewrite Hn. by apply display_get_run.
Qed.

Lemma display_and_visible_run (w : World) (c : addr) :
  is_Some (nodes w !! c) ->
  display_and_visible c w = (Ok (displayed w c && visible w c), w).
Proof.
  intros [n Hn]. unfold display_and_visible, displayed, visible.
  rewrite Hn, (bind_ok _ _ _ _ _ (display_get_run _ _ _ Hn)).
  destruct (bool_decide (styles_display n ≠ "none")); [|done].
  by rewrite (visible_get_run _ _ _ Hn).
Qed.

Lemma filter_filter_andb {A} (f g : A -> bool) (l : list A) :
  List.filter g (List.filter f l) = List.filter (fun x => f x && g x) l.
Proof.
  induction l as [|x l IH]; [done|]. cbn.
  destruct (f x); cbn; [|done]. destruct (g x); by rewrite IH.
Qed.

Lemma displayed_children_run (w : World) (self : addr) (n : DOMNode) :
  nodes w !! self = Some n ->
  children_exist w n = true ->
  displayed_children self w
  = (Ok (List.filter (displayed w) (children n)), w).
Proof.
  intros Hn Hex%children_exist_Forall. unfold displayed_children.
  rewrite (bind_ok _ _ _ _ _ (get_node_run _ _ _ Hn)).
  apply comprehension_run.
  eapply Forall_impl; [exact Hex|]. intros c. apply display_get_displayed.
Qed.

Lemma focusable_children_run (w : World) (self : addr) (n : DOMNode) :
  nodes w !! self = Some n ->
  children_exist w n = true ->
  focusable_children self w
  = (Ok (List.filter (fun c => displayed w c && visible w c) (children n)),
     w).
Proof.
  intros Hn Hex%children_exist_Forall. unfold focusable_children.
  rewrite (bind_ok _ _ _ _ _ (get_node_run _ _ _ Hn)).
  apply comprehension_run.
  eapply Forall_impl; [exact Hex|]. intros c. apply display_and_visible_run.
Qed.

(** [displayed_children] returns the children that the [display] getter
    reads as displayed, in the order of the children list, and
    [focusable_children] returns those of them that the [visible] getter
    reads as visible, in the same order; neither changes the store. *)
Theorem focusable_children_of_displayed_children (w : World) (self : addr)
    (n : DOMNode) :
  nodes w !! self = Some n ->
  children_exist w n = true ->
  exists shown focusable,
    displayed_children self w = (Ok shown, w)
    /\ focusable_children self w = (Ok focusable, w)
    /\ shown = List.filter (displayed w) (children n)
    /\ focusable = List.filter (visible w) shown
    /\ (forall c, c ∈ shown <-> c ∈ children n /\ displayed w c = true)
    /\ (forall c, c ∈ focusable <-> c ∈ shown /\ visible w c = true).
Proof.
  intros Hn Hex. do 2 eexists.
  split; [exact (displayed_children_run _ _ _ Hn Hex)|].
  split; [exact (focusable_children_run _ _ _ Hn Hex)|].
  split; [reflexivity|]. split; [by rewrite filter_filter_andb|].
  split.
  - intros c. rewrite !list_elem_of_In. apply filter_In.
  - intros c. rewrite <- filter_filter_andb. rewrite !list_elem_of_In.
    apply filter_In.
Qed.
End DisplayForgets.

(** The node 2 of [Cases.gallery] has the inline display none: switched
    off and on, it has the display block. *)
Lemma display_off_on_resets_to_block_witness :
  exists w1 w2 n2,
    display_set 2 (PyBool false) Cases.gallery = (Ok tt, w1)
    /\ display_set 2 (PyBool true) w1 = (Ok tt, w2)
    /\ nodes w2 !! 2 = Some n2
    /\ styles_display n2 = "block"
    /\ ("none" <> "block" -> styles_display n2 <> "none")
    /\ display_get 2 w2 = (Ok true, w2).
Proof.
  apply (display_off_on_resets_to_block Cases.gallery 2
           (Demo.styled (Some 0)
              (mkStyles (Some "none") None None None None))).
  reflexivity.
Defined.

(** In [Cases.gallery] the displayed children of the node 0 are 1 and 3,
    and its only focusable child is 1. *)
Lemma focusable_children_of_displayed_children_witness :
  displayed_children 0 Cases.gallery = (Ok [1; 3], Cases.gallery)
  /\ focusable_children 0 Cases.gallery = (Ok [1], Cases.gallery).
Proof.
  destruct (focusable_children_of_displayed_children Cases.gallery 0
              (Demo.linked None [1; 2; 3] None) eq_refl eq_refl)
    as (shown & focusable & Hshown & Hfocus & -> & -> & _).
  split; [exact Hshown | exact Hfocus].
Defined.

Section HidingChildren.
Context `{R : Rich}.

Lemma filter_ext_Forall {A} (f g : A -> bool) (l : list A) :
  Forall (fun x => f x = g x) l -> List.filter f l = List.filter g l.
Proof. induction 1 as [|x l Hx _ IH]; cbn; [done|]. by rewrite Hx, IH. Qed.

(** After the [display] of an object is set to False, the object is in the
    displayed and in the focusable children of no node: both lists of
    every node are what they were, less that object. *)
Theorem hidden_child_leaves_displayed_children (w : World)
    (self child : addr) (n c : DOMNode) :
  nodes w !! self = Some n ->
  children_exist w n = true ->
  nodes w !! child = Some c ->
  exists w' shown focusable,
    display_set child (PyBool false) w = (Ok tt, w')
    /\ displayed_children self w = (Ok shown, w)
    /\ focusable_children self w = (Ok focusable, w)
    /\ displayed_children self w'
       = (Ok (List.filter (fun x => bool_decide (x <> child)) shown), w')
    /\ focusable_children self w'
       = (Ok (List.filter (fun x => bool_decide (x <> child)) focusable),
          w').
Proof.
  intros Hn Hex Hc. do 3 eexists.
  split; [exact (display_set_bool_run _ _ _ false Hc)|].
  split; [exact (displayed_children_run _ _ _ Hn Hex)|].
  split; [exact (focusable_children_run _ _ _ Hn Hex)|].
  set (w' := display_stored w child c "none").
  assert (exists n', nodes w' !! self = Some n'
                     /\ children n' = children n) as (n' & Hn' & Hch).
  { subst w'. cbn. destruct (decide (child = self)) as [->|Hne].
    - rewrite lookup_insert_eq. eexists. split; [reflexivity|].
      cbn. congruence.
    - rewrite lookup_insert_ne by done. by exists n. }
  assert (forall x, displayed w' x
                    = displayed w x && bool_decide (x <> child)) as Hdisp.
  { intros x. unfold displayed. subst w'. cbn.
    destruct (decide (x = child)) as [->|Hne].
    - rewrite lookup_insert_eq. cbn.
      rewrite (bool_decide_eq_false_2 (child <> child))
        by (intros H; by apply H).
      by rewrite andb_false_r.
    - rewrite lookup_insert_ne by done.
      rewrite (bool_decide_eq_true_2 (x <> child)) by done.
      by rewrite andb_true_r. }
  assert (forall x, visible w' x = visible w x) as Hvis.
  { intros x. unfold visible. subst w'. cbn.
    destruct (decide (x = child)) as [->|Hne].
    - by rewrite lookup_insert_eq, Hc.
    - by rewrite lookup_insert_ne. }
  assert (children_exist w' n' = true) as Hex'.
  { unfold children_exist in *. rewrite Hch, <- Hex.
    apply forallb_ext_Forall, Forall_forall. intros x _. subst w'. cbn.
    rewrite lookup_insert. case_decide; [|done]. subst x.
    rewrite Hc. apply bool_decide_ext. split; intros _; by eexists. }
  split.
  - rewrite (displayed_children_run _ _ _ Hn' Hex'), Hch.
    rewrite filter_filter_andb. do 2 f_equal.
    apply filter_ext_Forall, Forall_forall. intros x _. apply Hdisp.
  - rewrite (focusable_children_run _ _ _ Hn' Hex'), Hch.
    rewrite filter_filter_andb. do 2 f_equal.
    apply filter_ext_Forall, Forall_forall. intros x _.
    rewrite Hdisp, Hvis.
    destruct (displayed w x), (visible w x), (bool_decide (x <> child));
      reflexivity.
Qed.
End HidingChildren.

(** In [Cases.gallery] the child 1 of the node 0 is hidden: the displayed
    children of the node 0 are then 3 only, and none is focusable. *)
Lemma hidden_child_leaves_displayed_children_witness :
  exists w',
    display_set 1 (PyBool false) Cases.gallery = (Ok tt, w')
    /\ displayed_children 0 w' = (Ok [3], w')
    /\ focusable_children 0 w' = (Ok [], w').
Proof.
  destruct (hidden_child_leaves_displayed_children Cases.gallery 0 1
              (Demo.linked None [1; 2; 3] None)
              (Demo.styled (Some 0) Demo.no_styles)
              eq_refl eq_refl eq_refl)
    as (w' & shown & focusable & Hset & Hshown & Hfocus & Hd & Hf).
  injection Hshown as <-. injection Hfocus as <-.
  exists w'. split; [exact Hset|]. split; [exact Hd | exact Hf].
Defined.

(** ** Further facts on class mutation *)

Section MoreClassFacts.
Context `{R : Rich} `{S : !Stylesheet}.

Lemma has_class_run (w : World) (self : addr) (n : DOMNode)
    (class_names : list string) :
  nodes w !! self = Some n ->
  has_class self class_names w
  = (Ok (bool_decide (list_to_set class_names ⊆ _classes n)), w).
Proof.
  intros Hn. unfold has_class.
  by rewrite (bind_ok _ _ _ _ _ (get_node_run _ _ _ Hn)).
Qed.

Lemma has_class_single (w : World) (self : addr) (n : DOMNode)
    (x : string) :
  nodes w !! self = Some n ->
  has_class self [x] w = (Ok (bool_decide (x ∈ _classes n)), w).
Proof.
  intros Hn. rewrite (has_class_run _ _ _ _ Hn). do 2 f_equal.
  apply bool_decide_ext. cbn. rewrite elem_of_subseteq. split.
  - intros H. apply H. apply elem_of_union. left. by apply elem_of_singleton.
  - intros Hx y [Hy|Hy]%elem_of_union.
    + apply elem_of_singleton in Hy. by subst.
    + by apply elem_of_empty in Hy.
Qed.

(** After each class mutator, [has_class] for one name reads: for
    [add_class], what it read before or that the name was given; for
    [remove_class], what it read before and that the name was not given;
    for [toggle_class], the opposite of what it read before exactly when
    the name was given. [has_class] for all the names given to [add_class]
    reads True. *)
Theorem has_class_after_mutators (w : World) (self : addr) (n : DOMNode)
    (class_names : list string) :
  nodes w !! self = Some n ->
  (exists w',
     add_class self class_names w = (Ok tt, w')
     /\ has_class self class_names w' = (Ok true, w')
     /\ forall x,
          has_class self [x] w'
          = (Ok (bool_decide (x ∈ _classes n)
                 || bool_decide (x ∈ class_names)), w'))
  /\ (exists w',
        remove_class self class_names w = (Ok tt, w')
        /\ forall x,
             has_class self [x] w'
             = (Ok (bool_decide (x ∈ _classes n)
                    && negb (bool_decide (x ∈ class_names))), w'))
  /\ (exists w',
        toggle_class self class_names w = (Ok tt, w')
        /\ forall x,
             has_class self [x] w'
             = (Ok (xorb (bool_decide (x ∈ _classes n))
                         (bool_decide (x ∈ class_names))), w')).
Proof.
  intros Hn. split; [|split].
  - destruct (mutate_classes_run (fun c => c ∪ list_to_set class_names)
                w self n Hn) as (w' & css & Hrun & Hw' & _).
    exists w'. split; [exact Hrun|]. split.
    + rewrite (has_class_run _ _ _ _ Hw'). do 2 f_equal.
      apply bool_decide_eq_true_2. cbn. apply union_subseteq_r.
    + intros x. rewrite (has_class_single _ _ _ _ Hw'). do 2 f_equal. cbn.
      rewrite <- bool_decide_or. apply bool_decide_ext.
      by rewrite elem_of_union, elem_of_list_to_set.
  - destruct (mutate_classes_run (fun c => c ∖ list_to_set class_names)
                w self n Hn) as (w' & css & Hrun & Hw' & _).
    exists w'. split; [exact Hrun|].
    intros x. rewrite (has_class_single _ _ _ _ Hw'). do 2 f_equal. cbn.
    rewrite <- bool_decide_not, <- bool_decide_and. apply bool_decide_ext.
    by rewrite elem_of_difference, elem_of_list_to_set.
  - destruct (mutate_classes_run
                (fun c => symmetric_difference c (list_to_set class_names))
                w self n Hn) as (w' & css & Hrun & Hw' & _).
    exists w'. split; [exact Hrun|].
    intros x. rewrite (has_class_single _ _ _ _ Hw'). do 2 f_equal. cbn.
    unfold symmetric_difference.
    destruct (decide (x ∈ _classes n)) as [Hc|Hc],
             (decide (x ∈ class_names)) as [Hg|Hg];
      rewrite ?(bool_decide_eq_true_2 _ Hc), ?(bool_decide_eq_false_2 _ Hc),
        ?(bool_decide_eq_true_2 _ Hg), ?(bool_decide_eq_false_2 _ Hg);
      cbn; [apply bool_decide_eq_false_2 | apply bool_decide_eq_true_2
            | apply bool_decide_eq_true_2 | apply bool_decide_eq_false_2];
      rewrite elem_of_union, !elem_of_difference, elem_of_list_to_set;
      tauto.
Qed.
End MoreClassFacts.

(** The enabled button of [Demo.buttons_mounted] has the class -default. *)
Lemma has_class_after_mutators_witness :
  (exists w',
     add_class 0 ["-active"] Demo.buttons_mounted = (Ok tt, w')
     /\ has_class 0 ["-active"] w' = (Ok true, w')
     /\ has_class 0 ["-default"] w' = (Ok true, w'))
  /\ (exists w',
        remove_class 0 ["-default"] Demo.buttons_mounted = (Ok tt, w')
        /\ has_class 0 ["-default"] w' = (Ok false, w'))
  /\ (exists w',
        toggle_class 0 ["-default"; "-active"] Demo.buttons_mounted
        = (Ok tt, w')
        /\ has_class 0 ["-default"] w' = (Ok false, w')
        /\ has_class 0 ["-active"] w' = (Ok true, w')).
Proof.
  split; [|split].
  - destruct (proj1 (has_class_after_mutators Demo.buttons_mounted 0
                       (Demo.button {[ "-default" ]} Demo.no_styles false)
                       ["-active"] eq_refl))
      as (w' & Hrun & Hall & Hone).
    exists w'. split; [exact Hrun|]. split; [exact Hall|].
    exact (Hone "-default").
  - destruct (proj1 (proj2 (has_class_after_mutators Demo.buttons_mounted 0
                       (Demo.button {[ "-default" ]} Demo.no_styles false)
                       ["-default"] eq_refl)))
      as (w' & Hrun & Hone).
    exists w'. split; [exact Hrun|]. exact (Hone "-default").
  - destruct (proj2 (proj2 (has_class_after_mutators Demo.buttons_mounted 0
                       (Demo.button {[ "-default" ]} Demo.no_styles false)
                       ["-default"; "-active"] eq_refl)))
      as (w' & Hrun & Hone).
    exists w'. split; [exact Hrun|].
    split; [exact (Hone "-default") | exact (Hone "-active")].
Defined.

Section ClassFrame.
Context `{R : Rich} `{S : !Stylesheet}.

Lemma restyled_only_refl (o : option DOMNode) : restyled_only o o.
Proof. destruct o as [n|]; [|done]. exists (_css_styles n). by destruct n. Qed.

Lemma mutate_classes_frame (f : gset string -> gset string) (w : World)
    (self : addr) :
  classes_changed_only w
    ((modify_node self (fun n => with_classes (f (_classes n)) n) ;;;
      update_styles self) w).2
    self f.
Proof.
  unfold classes_changed_only, bind, modify_node.
  destruct (nodes w !! self) as [n|] eqn:Hn; cbn [snd].
  - rewrite update_styles_run. cbn [active_app].
    destruct (active_app w) as [a|] eqn:Happ; cbn.
    + split; [done|]. intros x. rewrite map_lookup_imap, lookup_insert.
      case_decide as Hx.
      * subst x. rewrite Hn. cbn. rewrite bool_decide_eq_true_2 by done.
        by eexists.
      * rewrite bool_decide_eq_false_2 by done.
        destruct (nodes w !! x) as [m|]; cbn; [by eexists | done].
    + split; [done|]. intros x. rewrite lookup_insert.
      case_decide as Hx.
      * subst x. rewrite Hn. cbn. rewrite bool_decide_eq_true_2 by done.
        apply (restyled_only_refl (Some _)).
      * rewrite bool_decide_eq_false_2 by done.
        destruct (nodes w !! x) as [m|]; cbn; [|done].
        apply (restyled_only_refl (Some m)).
  - split; [done|]. intros x. case_bool_decide as Hx.
    + subst x. by rewrite Hn.
    + destruct (nodes w !! x) as [m|]; cbn; [|done].
      apply (restyled_only_refl (Some m)).
Qed.

(** The class mutators create and delete no object, leave the attached
    application as it is, and change no id, children list, parent, inline
    style, timer, message or class set of any object, except the class set
    of the node itself; besides it only cascade layers change. This holds
    whether or not they return normally. *)
Theorem class_mutators_touch_only_classes (w : World) (self : addr)
    (class_names : list string) :
  classes_changed_only w (add_class self class_names w).2 self
    (fun c => c ∪ list_to_set class_names)
  /\ classes_changed_only w (remove_class self class_names w).2 self
       (fun c => c ∖ list_to_set class_names)
  /\ classes_changed_only w (toggle_class self class_names w).2 self
       (fun c => symmetric_difference c (list_to_set class_names)).
Proof.
  split; [|split].
  - exact (mutate_classes_frame (fun c => c ∪ list_to_set class_names)
             w self).
  - exact (mutate_classes_frame (fun c => c ∖ list_to_set class_names)
             w self).
  - exact (mutate_classes_frame
             (fun c => symmetric_difference c (list_to_set class_names))
             w self).
Qed.

Lemma union_idem_names (c t : gset string) : c ∪ t ∪ t = c ∪ t.
Proof. apply set_eq. intros x. set_facts. Qed.

Lemma difference_idem_names (c t : gset string) : c ∖ t ∖ t = c ∖ t.
Proof. apply set_eq. intros x. set_facts. Qed.

Lemma union_difference_names (c t : gset string) : (c ∪ t) ∖ t = c ∖ t.
Proof. apply set_eq. intros x. set_facts. Qed.

Lemma difference_union_names (c t : gset string) : c ∖ t ∪ t = c ∪ t.
Proof.
  apply set_eq. intros x.
  rewrite !elem_of_union, elem_of_difference.
  destruct (decide (x ∈ t)); tauto.
Qed.

(** [add_class] and [remove_class] are idempotent on the class set, and
    the one that comes last wins: names added and then removed are absent,
    names removed and then added are present, and the other names of the
    node are kept. *)
Theorem add_remove_class_compose (w : World) (self : addr) (n : DOMNode)
    (class_names : list string) :
  nodes w !! self = Some n ->
  (exists w1 w2,
     add_class self class_names w = (Ok tt, w1)
     /\ add_class self class_names w1 = (Ok tt, w2)
     /\ classes_of w2 self = classes_of w1 self)
  /\ (exists w1 w2,
        remove_class self class_names w = (Ok tt, w1)
        /\ remove_class self class_names w1 = (Ok tt, w2)
        /\ classes_of w2 self = classes_of w1 self)
  /\ (exists w1 w2,
        add_class self class_names w = (Ok tt, w1)
        /\ remove_class self class_names w1 = (Ok tt, w2)
        /\ classes_of w2 self
           = Some (_classes n ∖ list_to_set class_names))
  /\ (exists w1 w2,
        remove_class self class_names w = (Ok tt, w1)
        /\ add_class self class_names w1 = (Ok tt, w2)
        /\ classes_of w2 self
           = Some (_classes n ∪ list_to_set class_names)).
Proof.
  intros Hn.
  destruct (mutate_classes_run (fun c => c ∪ list_to_set class_names)
              w self n Hn) as (wa & cssa & Hadd & Hwa & _).
  destruct (mutate_classes_run (fun c => c ∖ list_to_set class_names)
              w self n Hn) as (wr & cssr & Hrem & Hwr & _).
  destruct (mutate_classes_run (fun c => c ∪ list_to_set class_names)
              wa self _ Hwa) as (waa & cssaa & Haa & Hwaa & _).
  destruct (mutate_classes_run (fun c => c ∖ list_to_set class_names)
              wa self _ Hwa) as (war & cssar & Har & Hwar & _).
  destruct (mutate_classes_run (fun c => c ∖ list_to_set class_names)
              wr self _ Hwr) as (wrr & cssrr & Hrr & Hwrr & _).
  destruct (mutate_classes_run (fun c => c ∪ list_to_set class_names)
              wr self _ Hwr) as (wra & cssra & Hra & Hwra & _).
  unfold classes_of. split; [|split; [|split]].
  - exists wa, waa. split; [exact Hadd|]. split; [exact Haa|].
    rewrite Hwaa, Hwa. cbn. by rewrite union_idem_names.
  - exists wr, wrr. split; [exact Hrem|]. split; [exact Hrr|].
    rewrite Hwrr, Hwr. cbn. by rewrite difference_idem_names.
  - exists wa, war. split; [exact Hadd|]. split; [exact Har|].
    rewrite Hwar. cbn. by rewrite union_difference_names.
  - exists wr, wra. split; [exact Hrem|]. split; [exact Hra|].
    rewrite Hwra. cbn. by rewrite difference_union_names.
Qed.
End ClassFrame.

(** On the enabled button of [Demo.buttons_mounted]: -active added and
    removed again is absent, -default removed and added again is
    present. *)
Lemma add_remove_class_compose_witness :
  (exists w1 w2,
     add_class 0 ["-active"] Demo.buttons_mounted = (Ok tt, w1)
     /\ remove_class 0 ["-active"] w1 = (Ok tt, w2)
     /\ classes_of w2 0 = Some {[ "-default" ]})
  /\ (exists w1 w2,
        remove_class 0 ["-default"] Demo.buttons_mounted = (Ok tt, w1)
        /\ add_class 0 ["-default"] w1 = (Ok tt, w2)
        /\ classes_of w2 0 = Some {[ "-default" ]}).
Proof.
  split.
  - destruct (proj1 (proj2 (proj2
                (add_remove_class_compose Demo.buttons_mounted 0
                   (Demo.button {[ "-default" ]} Demo.no_styles false)
                   ["-active"] eq_refl))))
      as (w1 & w2 & H1 & H2 & Hcls).
    exists w1, w2. split; [exact H1|]. split; [exact H2|].
    rewrite Hcls. reflexivity.
  - destruct (proj2 (proj2 (proj2
                (add_remove_class_compose Demo.buttons_mounted 0
                   (Demo.button {[ "-default" ]} Demo.no_styles false)
                   ["-default"] eq_refl))))
      as (w1 & w2 & H1 & H2 & Hcls).
    exists w1, w2. split; [exact H1|]. split; [exact H2|].
    rewrite Hcls. reflexivity.
Defined.

(** ** Further facts on buttons *)

Section MoreButtonFacts.
Context `{R : Rich} `{S : !Stylesheet}.

Lemma dash_injective (s t : string) : "-" ++ s = "-" ++ t -> s = t.
Proof. intros H. by injection H. Qed.

(** [watch_variant] returns normally and leaves the button with the class
    of the new variant; the class of the old variant is gone unless the
    two variants are the same, and every other class of the button is as
    it was. *)
Theorem watch_variant_swaps_class (w : World) (self : addr) (n : DOMNode)
    (old_variant variant : string) :
  nodes w !! self = Some n ->
  exists w' n',
    watch_variant self old_variant variant w = (Ok tt, w')
    /\ nodes w' !! self = Some n'
    /\ ("-" ++ variant) ∈ _classes n'
    /\ (old_variant <> variant -> ("-" ++ old_variant) ∉ _classes n')
    /\ (forall c, c <> "-" ++ old_variant -> c <> "-" ++ variant ->
          c ∈ _classes n' <-> c ∈ _classes n).
Proof.
  intros Hn. unfold watch_variant.
  destruct (mutate_classes_run
              (fun c => c ∖ list_to_set ["-" ++ old_variant]) w self n Hn)
    as (w1 & css1 & Hrem & Hw1 & _).
  destruct (mutate_classes_run
              (fun c => c ∪ list_to_set ["-" ++ variant]) w1 self _ Hw1)
    as (w2 & css2 & Hadd & Hw2 & _).
  exists w2. eexists.
  split.
  { unfold remove_class. rewrite (bind_ok _ _ _ _ _ Hrem). exact Hadd. }
  split; [exact Hw2|]. cbn.
  split; [set_facts|]. split.
  - intros Hne.
    rewrite !elem_of_union, !elem_of_difference, !elem_of_union,
      !elem_of_singleton, !elem_of_empty.
    intros [[_ Habs]|[Heq|[]]]; [apply Habs; by left|].
    by apply Hne, dash_injective.
  - intros c Hold Hnew.
    rewrite !elem_of_union, !elem_of_difference, !elem_of_union,
      !elem_of_singleton, !elem_of_empty.
    tauto.
Qed.
End MoreButtonFacts.

(** The enabled button of [Demo.buttons] goes from the variant default to
    the variant primary. *)
Lemma watch_variant_swaps_class_witness :
  exists w' n',
    watch_variant 0 "default" "primary" Demo.buttons = (Ok tt, w')
    /\ nodes w' !! 0 = Some n'
    /\ "-primary" ∈ _classes n'
    /\ ("default" <> "primary" -> "-default" ∉ _classes n')
    /\ (forall c, c <> "-default" -> c <> "-primary" ->
          c ∈ _classes n' <-> c ∈ ({[ "-default" ]} : gset string)).
Proof.
  exact (watch_variant_swaps_class Demo.buttons 0
           (Demo.button {[ "-default" ]} Demo.no_styles false)
           "default" "primary" eq_refl).
Defined.

Section PressTwice.
Context `{R : Rich} `{S : !Stylesheet}.

Lemma press_run (w : World) (self : addr) (n : DOMNode) :
  nodes w !! self = Some n ->
  disabled n = false ->
  styles_display n <> "none" ->
  exists w1 css,
    press self w = (Ok self, w1)
    /\ nodes w1 !! self
       = Some (with_message_queue
                 (_message_queue n ++ [Button_Pressed self])
                 (with_timers
                    (_timers n
                       ++ [mkTimer ACTIVE_EFFECT_DURATION
                             (partial_remove_class self ["-active"])])
                    (with_css_styles css
                       (with_classes
                          (_classes n ∪ list_to_set ["-active"]) n)))).
Proof.
  intros Hn Hen Hdisp. unfold press.
  rewrite (bind_ok _ _ _ _ _ (get_node_run _ _ _ Hn)).
  rewrite (bind_ok _ _ _ _ _ (display_get_run _ _ _ Hn)).
  rewrite Hen, bool_decide_eq_true_2 by done. cbn [orb negb].
  destruct (mutate_classes_run (fun c => c ∪ list_to_set ["-active"])
              w self n Hn) as (wa & css & Hadd & Hwa & _).
  erewrite bind_ok; cycle 1.
  { unfold _start_active_affect, add_class.
    rewrite (bind_ok _ _ _ _ _ Hadd). unfold set_timer.
    rewrite (modify_node_run _ _ _ _ Hwa). reflexivity. }
  erewrite bind_ok; cycle 1.
  { unfold post_message. erewrite modify_node_run; [reflexivity|].
    cbn. apply lookup_insert_eq. }
  unfold ret. do 2 eexists. split; [reflexivity|]. cbn.
  rewrite lookup_insert_eq. reflexivity.
Qed.

(** A second [press] on a button whose inline display is set and is not
    none takes effect like the first: the button then has two pending
    timers and two posted messages more than before. The callback of the
    first timer alone already leaves the button without the class -active:
    the second press does not prolong the effect. *)
Theorem press_twice_first_expiry_ends_effect (w : World) (self : addr)
    (n : DOMNode) (d : string) :
  nodes w !! self = Some n ->
  disabled n = false ->
  display_rule (_inline_styles n) = Some d ->
  d <> "none" ->
  exists w1 w2 n2,
    press self w = (Ok self, w1)
    /\ press self w1 = (Ok self, w2)
    /\ nodes w2 !! self = Some n2
    /\ ("-active" ∈ _classes n2)
    /\ _timers n2
       = (_timers n
            ++ [mkTimer ACTIVE_EFFECT_DURATION
                  (partial_remove_class self ["-active"]);
                mkTimer ACTIVE_EFFECT_DURATION
                  (partial_remove_class self ["-active"])])%list
    /\ _message_queue n2
       = (_message_queue n ++ [Button_Pressed self; Button_Pressed self])%list
    /\ exists w3 n3,
         process_expiry
           (mkTimer ACTIVE_EFFECT_DURATION
              (partial_remove_class self ["-active"])) w2
         = (Ok tt, w3)
         /\ nodes w3 !! self = Some n3
         /\ ("-active" ∉ _classes n3).
Proof.
  intros Hn Hen Hinline Hd.
  assert (styles_display n <> "none") as Hdisp.
  { unfold styles_display, merged. by rewrite Hinline. }
  destruct (press_run w self n Hn Hen Hdisp) as (w1 & css1 & Hp1 & Hw1).
  destruct (press_run w1 self _ Hw1) as (w2 & css2 & Hp2 & Hw2).
  { exact Hen. }
  { unfold styles_display, merged. cbn. by rewrite Hinline. }
  destruct (mutate_classes_run (fun c => c ∖ list_to_set ["-active"])
              w2 self _ Hw2) as (w3 & css3 & Hrem & Hw3 & _).
  exists w1, w2. eexists.
  split; [exact Hp1|]. split; [exact Hp2|]. split; [exact Hw2|]. cbn.
  split; [set_facts|]. split; [by rewrite <- app_assoc|].
  split; [by rewrite <- app_assoc|].
  exists w3. eexists. split; [exact Hrem|]. split; [exact Hw3|]. cbn.
  set_facts.
Qed.
End PressTwice.

(** Two presses on the button of [Cases.pressable]. *)
Lemma press_twice_first_expiry_ends_effect_witness :
  exists w1 w2 n2,
    press 0 Cases.pressable = (Ok 0, w1)
    /\ press 0 w1 = (Ok 0, w2)
    /\ nodes w2 !! 0 = Some n2
    /\ ("-active" ∈ _classes n2)
    /\ _timers n2
       = [mkTimer 0.3 (partial_remove_class 0 ["-active"]);
          mkTimer 0.3 (partial_remove_class 0 ["-active"])]
    /\ _message_queue n2 = [Button_Pressed 0; Button_Pressed 0]
    /\ exists w3 n3,
         process_expiry (mkTimer 0.3 (partial_remove_class 0 ["-active"])) w2
         = (Ok tt, w3)
         /\ nodes w3 !! 0 = Some n3
         /\ ("-active" ∉ _classes n3).
Proof.
  apply (press_twice_first_expiry_ends_effect Cases.pressable 0
           (Demo.button {[ "-default" ]}
              (mkStyles (Some "block") None None None None) false)
           "block"); try reflexivity.
  discriminate.
Defined.

(** ** Further facts on the resolved text style *)

Section TextStyleFrame.
Context `{R : Rich}.

Lemma ancestors_loop_agree (w w' : World) (fuel : nat) :
  forall (a : addr) (rest acc : list addr),
    parent_chain w (a :: rest) = true ->
    (forall x, x ∈ a :: rest -> nodes w' !! x = nodes w !! x) ->
    ancestors_loop fuel w' a acc = ancestors_loop fuel w a acc.
Proof.
  induction fuel as [|fuel IH]; intros a rest acc Hchain Hsame; [done|].
  cbn. rewrite (Hsame a) by (apply elem_of_cons; by left).
  apply parent_chain_inv in Hchain as (n & Hn & Hrest). rewrite Hn.
  destruct rest as [|p rest]; [by rewrite Hrest|].
  destruct Hrest as [-> Hrest]. apply (IH p rest); [done|].
  intros x Hx. apply Hsame. by apply elem_of_cons; right.
Qed.

Lemma rich_text_style_loop_agree (w w' : World) (l : list addr) :
  (forall x, x ∈ l -> nodes w' !! x = nodes w !! x) ->
  forall acc, rich_text_style_loop w' l acc = rich_text_style_loop w l acc.
Proof.
  induction l as [|a l IH]; intros Hsame acc; [done|]. cbn.
  rewrite (Hsame a) by (apply elem_of_cons; by left).
  destruct (nodes w !! a) as [n|]; [|done].
  apply IH. intros x Hx. apply Hsame. by apply elem_of_cons; right.
Qed.

(** The text style of a node is read from the node and its ancestors only:
    in a store that holds the same objects under those identities,
    whatever the other objects are or have become, [rich_text_style]
    returns the same for every fuel. *)
Theorem rich_text_style_reads_ancestors_only (w w' : World) (self : addr)
    (rest : list addr) (fuel : nat) :
  parent_chain w (self :: rest) = true ->
  (forall x, x ∈ self :: rest -> nodes w' !! x = nodes w !! x) ->
  rich_text_style fuel w' self = rich_text_style fuel w self.
Proof.
  intros Hchain Hsame. unfold rich_text_style, ancestors.
  rewrite (ancestors_loop_agree w w' fuel self rest [self] Hchain Hsame).
  destruct (ancestors_loop fuel w self [self]) as [[l|e]|] eqn:Hrun;
    [|done|done].
  apply ancestors_loop_sound in Hrun as (rest' & -> & Hchain' & _).
  assert (rest' = rest) as ->.
  { clear Hsame. revert self rest' Hchain Hchain'.
    induction rest as [|p rest IH]; intros a rest' Hc Hc'.
    - apply parent_chain_inv in Hc as (n & Hn & Hp).
      apply parent_chain_inv in Hc' as (n' & Hn' & Hp').
      rewrite Hn in Hn'. injection Hn' as <-.
      destruct rest' as [|q rest']; [done|]. destruct Hp' as [Hp' _].
      congruence.
    - apply parent_chain_inv in Hc as (n & Hn & Hp & Hc).
      apply parent_chain_inv in Hc' as (n' & Hn' & Hp').
      rewrite Hn in Hn'. injection Hn' as <-.
      destruct rest' as [|q rest']; [congruence|].
      destruct Hp' as [Hq Hc']. assert (q = p) as -> by congruence.
      f_equal. by apply (IH p). }
  rewrite (rich_text_style_loop_agree w w' (rev ([self] ++ rest))); [done|].
  intros x Hx. apply Hsame. apply list_elem_of_In, in_rev.
  by apply list_elem_of_In.
Qed.
End TextStyleFrame.

(** In [Demo.painted] the node 2 is a leaf under the node 1: the text style
    of the node 1 is the same after the display of the node 2 is set. *)
Lemma rich_text_style_reads_ancestors_only_witness :
  rich_text_style 5 (display_set 2 (PyBool false) Demo.painted).2 1
  = rich_text_style 5 Demo.painted 1.
Proof.
  apply (rich_text_style_reads_ancestors_only Demo.painted
           (display_set 2 (PyBool false) Demo.painted).2 1 [0] 5).
  - reflexivity.
  - intros x Hx. cbn. apply lookup_insert_ne. intros <-.
    apply (bool_decide_pack _) in Hx. vm_compute in Hx. exact Hx.
Defined.
